(** * frappe_swagger: route extraction and OpenAPI synthesis

    A shallow embedding of [src/main.py]: the scan of Python syntax trees for
    functions decorated with a [whitelist] call ([extract_routes_from_file],
    [extract_routes_from_module]) and the construction of the OpenAPI
    document ([generate_openapi_spec]).

    Conventions of the model.
    - Python [str] is the [string] of its UTF-8 bytes, and [bytes] is the
      [string] of its bytes.  [str.lower] follows the Unicode tables; it is
      a field of the environment, known on ASCII text, where it moves the
      letters [A]..[Z] only.
    - Python dicts used as maps are [gmap], the tag set is a [gset]; the
      iteration order of a Python set is not specified, and neither is the
      order of [elements].
    - An exception is a value [Raise e] of the type [result]; the loops
      thread the list under construction and stop at the first exception.
    - The [ast] module is the one of Python 3.8 to 3.13: the parser produces
      [ast.Constant] for every literal and [Constant.s] is an alias of
      [Constant.value]; a node of another class has no attribute [s]. *)

From Stdlib Require Import ZArith Ascii String.
From Equations Require Import Equations.
From stdpp Require Import base list strings gmap.

Set Warnings "-register-all".

(** ** Exceptions *)

Inductive exn : Type :=
| SyntaxError
| AttributeError
| IndexError.

Inductive result (A : Type) : Type :=
| Ok (a : A)
| Raise (e : exn).
Arguments Ok {A} a.
Arguments Raise {A} e.

(** Sequencing: the first exception ends the computation. *)
Global Instance result_ret : MRet result := λ A a, Ok a.
Global Instance result_bind : MBind result := λ A B k c,
  match c with
  | Ok a => k a
  | Raise e => Raise e
  end.

(** ** Python syntax trees *)

(** The value of a literal: a [str], a [bytes], an [int], a [bool] or
    [None].  Float and complex literals and [...] are outside the model. *)
Inductive constant : Type :=
| CStr (s : string)
| CBytes (b : string)
| CInt (n : Z)
| CBool (b : bool)
| CNone.

Global Instance constant_eq_dec : EqDecision constant.
Proof. solve_decision. Defined.

(** Constants are the keys of the dict of operations. *)
Global Instance constant_countable : Countable constant.
Proof.
  refine (inj_countable'
    (λ c, match c with
          | CStr s => inl s
          | CBytes b => inr (inl b)
          | CInt n => inr (inr (inl n))
          | CBool b => inr (inr (inr (inl b)))
          | CNone => inr (inr (inr (inr ())))
          end)
    (λ x, match x with
          | inl s => CStr s
          | inr (inl b) => CBytes b
          | inr (inr (inl n)) => CInt n
          | inr (inr (inr (inl b))) => CBool b
          | inr (inr (inr (inr ()))) => CNone
          end) _).
  by intros [].
Defined.

(** Expressions, as far as decorators and defaults need them.  A keyword
    argument [**kw] of a call has no name ([None]). *)
Inductive expr : Type :=
| Constant (value : constant)
| Name (id : string)
| Attribute (value : expr) (attr : string)
| Call (func : expr) (args : list expr) (keywords : list (option string * expr))
| List (elts : list expr)
| Tuple (elts : list expr).

Definition keyword : Type := option string * expr.
Definition kw_arg (kw : keyword) : option string := kw.1.
Definition kw_value (kw : keyword) : expr := kw.2.

(** [ast.arg]: a declared parameter. *)
Record arg : Type := Arg { arg_name : string; annotation : option expr }.

(** [ast.arguments].  [defaults] belongs to the last parameters of
    [posonlyargs ++ args]; [kw_defaults] has one entry per keyword-only
    parameter. *)
Record arguments : Type := Arguments {
  posonlyargs : list arg;
  args : list arg;
  vararg : option arg;
  kwonlyargs : list arg;
  kw_defaults : list (option expr);
  kwarg : option arg;
  defaults : list expr
}.

(** Statements.  Every statement kind of the model keeps its nested
    statements in fields of the statement itself. *)
Inductive stmt : Type :=
| FunctionDef (name : string) (fargs : arguments) (body : list stmt)
    (decorator_list : list expr)
| AsyncFunctionDef (name : string) (fargs : arguments) (body : list stmt)
    (decorator_list : list expr)
| ClassDef (name : string) (bases : list expr) (body : list stmt)
    (decorator_list : list expr)
| If (test : expr) (body orelse : list stmt)
| While (test : expr) (body orelse : list stmt)
| Return (value : option expr)
| Expr (value : expr)
| Pass.

(** [ast.Module]: the root of a parsed file. *)
Definition module : Type := list stmt.

(** ** [ast.walk] *)

(** The statements among [ast.iter_child_nodes node], in field order. *)
Definition child_stmts (node : stmt) : list stmt :=
  match node with
  | FunctionDef _ _ body _ => body
  | AsyncFunctionDef _ _ body _ => body
  | ClassDef _ _ body _ => body
  | If _ body orelse => body ++ orelse
  | While _ body orelse => body ++ orelse
  | Return _ | Expr _ | Pass => []
  end.

Fixpoint stmt_size (node : stmt) : nat :=
  match node with
  | FunctionDef _ _ body _ => S (list_sum (List.map stmt_size body))
  | AsyncFunctionDef _ _ body _ => S (list_sum (List.map stmt_size body))
  | ClassDef _ _ body _ => S (list_sum (List.map stmt_size body))
  | If _ body orelse =>
      S (list_sum (List.map stmt_size body) + list_sum (List.map stmt_size orelse))
  | While _ body orelse =>
      S (list_sum (List.map stmt_size body) + list_sum (List.map stmt_size orelse))
  | Return _ | Expr _ | Pass => 1
  end.

Definition queue_size (todo : list stmt) : nat :=
  list_sum (List.map stmt_size todo).

Lemma queue_size_app (q1 q2 : list stmt) :
  queue_size (q1 ++ q2) = queue_size q1 + queue_size q2.
Proof.
  unfold queue_size. rewrite List.map_app. induction (List.map stmt_size q1); simpl; lia.
Qed.

Lemma queue_size_cons (node : stmt) (rest : list stmt) :
  queue_size (node :: rest) = stmt_size node + queue_size rest.
Proof. reflexivity. Qed.

Lemma stmt_size_children (node : stmt) :
  stmt_size node = S (queue_size (child_stmts node)).
Proof.
  destruct node; simpl; try reflexivity; now rewrite queue_size_app.
Qed.

(** [ast.walk]: [todo] is the deque; the node taken from its left is
    yielded, its children are appended on the right (breadth first).
    Expressions, [arguments] and [arg] nodes are also put in the deque by
    Python, but none of them is a function definition and none has a
    statement below it, so the walk of the model keeps the statements
    only, in the order in which Python yields them. *)
Equations? walk_queue (todo : list stmt) : list stmt by wf (queue_size todo) lt :=
  walk_queue [] := [];
  walk_queue (node :: rest) := node :: walk_queue (rest ++ child_stmts node).
Proof.
  rewrite queue_size_app, queue_size_cons, stmt_size_children. lia.
Qed.

(** The [Module] node itself comes first and is no function definition. *)
Definition walk (tree : module) : list stmt := walk_queue tree.

(** ** Strings *)

(** [bytes.lower], which is also [str.lower] on ASCII text: the letters
    [A]..[Z] become [a]..[z], every other byte stays. *)
Definition ascii_lower (c : ascii) : ascii :=
  let n := nat_of_ascii c in
  if (65 <=? n)%nat && (n <=? 90)%nat then ascii_of_nat (n + 32) else c.

Fixpoint lower_ascii (s : string) : string :=
  match s with
  | EmptyString => EmptyString
  | String c rest => String (ascii_lower c) (lower_ascii rest)
  end.

(** A text of ASCII characters only: every byte is below 128. *)
Fixpoint is_ascii (s : string) : bool :=
  match s with
  | EmptyString => true
  | String c rest => (nat_of_ascii c <? 128)%nat && is_ascii rest
  end.

(** [s.endswith(suffix)]. *)
Definition endswith (s suffix : string) : bool :=
  (String.length suffix <=? String.length s)%nat
  && String.eqb
       (substring (String.length s - String.length suffix) (String.length suffix) s)
       suffix.

(** The line boundaries of [str.splitlines] that are ASCII: LF, VT, FF, CR,
    FS, GS and RS. *)
Definition is_ascii_line_boundary (c : ascii) : bool :=
  let n := nat_of_ascii c in
  ((10 <=? n)%nat && (n <=? 13)%nat) || ((28 <=? n)%nat && (n <=? 30)%nat).

(** The number of bytes of the line boundary at the head of [s], [0] when
    there is none.  Besides the ASCII ones, [str.splitlines] splits at
    U+0085 (the bytes [C2 85]), U+2028 ([E2 80 A8]) and U+2029
    ([E2 80 A9]). *)
Definition boundary_length (s : string) : nat :=
  match s with
  | EmptyString => 0
  | String c rest =>
      if is_ascii_line_boundary c then 1
      else if bool_decide (c = "194"%char)
      then match rest with
           | String c2 _ => if bool_decide (c2 = "133"%char) then 2 else 0
           | EmptyString => 0
           end
      else if bool_decide (c = "226"%char)
      then match rest with
           | String c2 (String c3 _) =>
               if bool_decide (c2 = "128"%char)
                  && (bool_decide (c3 = "168"%char) || bool_decide (c3 = "169"%char))
               then 3 else 0
           | _ => 0
           end
      else 0
  end.

(** [str.splitlines]: [line] is the line read so far; [after_cr] says that
    the character before was a CR, of which a following LF is a part;
    [skip] counts the bytes still to pass of a boundary of several bytes. *)
Fixpoint splitlines_from (after_cr : bool) (skip : nat) (line s : string) : list string :=
  match s with
  | EmptyString => if bool_decide (line = "") then [] else [line]
  | String c rest =>
      match skip with
      | S skip' => splitlines_from false skip' line rest
      | 0 =>
          if after_cr && bool_decide (c = "010"%char)
          then splitlines_from false 0 line rest
          else match boundary_length s with
               | 0 => splitlines_from false 0 (line +:+ String c "") rest
               | S n => line :: splitlines_from (bool_decide (c = "013"%char)) n "" rest
               end
      end
  end.

Definition splitlines (s : string) : list string := splitlines_from false 0 "" s.

(** [s.rfind(c)], counted from [i] at the head of [s]. *)
Fixpoint rfind_from (c : ascii) (s : string) (i : nat) : option nat :=
  match s with
  | EmptyString => None
  | String a rest =>
      match rfind_from c rest (S i) with
      | Some j => Some j
      | None => if bool_decide (a = c) then Some i else None
      end
  end.

Definition rfind (c : ascii) (s : string) : option nat := rfind_from c s 0.

Fixpoint all_dots (s : string) : bool :=
  match s with
  | EmptyString => true
  | String a rest => bool_decide (a = "."%char) && all_dots rest
  end.

(** [os.path.splitext(p)[0]] of [posixpath]: the text before the last dot,
    unless that dot is before the last separator or only dots precede it in
    the file name. *)
Definition splitext_root (p : string) : string :=
  match rfind "."%char p with
  | None => p
  | Some dotIndex =>
      let filenameIndex := match rfind "/"%char p with None => 0 | Some sepIndex => S sepIndex end in
      if (filenameIndex <=? dotIndex)%nat
         && negb (all_dots (substring filenameIndex (dotIndex - filenameIndex) p))
      then substring 0 dotIndex p
      else p
  end.

(** [os.path.join(a, b)] of [posixpath]. *)
Definition path_join (a b : string) : string :=
  if String.prefix "/" b then b
  else if bool_decide (a = "") || endswith a "/" then a +:+ b
  else a +:+ "/" +:+ b.

(** ** Route records *)

(** The schema of a parameter: the dict [{"type": ...}]. *)
Record schema : Type := Schema { schema_type : string }.

Definition string_schema : schema := {| schema_type := "string" |}.

(** An element of [params]: the dict with the keys [name], [in], [required]
    and [schema]. *)
Record param : Type := Param {
  param_name : string;
  param_in : string;
  required : bool;
  param_schema : schema
}.

(** A response object: the dict [{"description": ...}]. *)
Record response : Type := Response { description : string }.

(** A route: the dict that [extract_routes_from_file] builds for a
    decorated function. *)
Record route : Type := Route {
  function_name : string;
  path : string;
  method : list constant;
  params : list param;
  doc : string;
  responses : gmap string response;
  tag : string
}.

(** ** The environment of the scan *)

(** What the program takes from Python's library and from the file
    system: [str.lower], which on ASCII text is [lower_ascii];
    [inspect.cleandoc], which [ast.get_docstring] applies to a docstring;
    [ast.parse] of the text of the file at a path (lines 10 and 11 of
    [main.py]); and the triples [(root, dirs, files)] of [os.walk]. *)
Class Environment : Type := {
  lower : string → string;
  lower_on_ascii : ∀ s, is_ascii s = true → lower s = lower_ascii s;
  cleandoc : string → string;
  parse_file : string → result module;
  os_walk : string → list (string * list string * list string)
}.

(** ** The Extractor *)

(** [.s] of a node: the value of a constant, no attribute elsewhere. *)
Definition attr_s (node : expr) : result constant :=
  match node with
  | Constant value => Ok value
  | _ => Raise AttributeError
  end.

(** Lines 18 to 22: the decorator is a call of an attribute [whitelist]. *)
Definition is_whitelist_call (decorator : expr) : bool :=
  match decorator with
  | Call (Attribute _ attr) _ _ => bool_decide (attr = "whitelist")
  | _ => false
  end.

Definition call_keywords (decorator : expr) : list keyword :=
  match decorator with
  | Call _ _ keywords => keywords
  | _ => []
  end.

(** Lines 23 and 26 to 29: the value of the first keyword named [methods]. *)
Fixpoint find_methods_arg (keywords : list keyword) : option expr :=
  match keywords with
  | [] => None
  | kw :: rest =>
      if bool_decide (kw_arg kw = Some "methods") then Some (kw_value kw)
      else find_methods_arg rest
  end.

(** Lines 31 to 36. *)
Definition methods_of_arg (methods_arg : option expr) : result (list constant) :=
  match methods_arg with
  | Some (List elts) => mapM attr_s elts
  | Some (Constant value) => Ok [value]
  | _ => Ok [CStr "POST"]
  end.

Definition extract_methods (decorator : expr) : result (list constant) :=
  methods_of_arg (find_methods_arg (call_keywords decorator)).

(** Lines 40 and 41: the defaults, then [None] as often as there are more
    parameters than defaults. *)
Definition padded_defaults (a : arguments) : list (option expr) :=
  (Some <$> defaults a) ++ replicate (length (args a) - length (defaults a)) None.

(** Lines 45 to 49. *)
Definition location (methods : list constant) : string :=
  if bool_decide (CStr "POST" ∈ methods) || bool_decide (CStr "PUT" ∈ methods)
  then "body" else "query".

(** Lines 43 to 58: the dict appended for one pair of the [zip]. *)
Definition make_param (methods : list constant) (pair : arg * option expr) : param :=
  let is_optional := bool_decide (pair.2 ≠ None) in
  {| param_name := arg_name pair.1;
     param_in := location methods;
     required := negb is_optional;
     param_schema := string_schema |}.

(** Lines 38 to 58. *)
Definition build_params (a : arguments) (methods : list constant) : list param :=
  make_param methods <$> zip (args a) (padded_defaults a).

Section Extractor.
Context `{env : Environment}.

(** [ast.get_docstring] of a function with the body [body]. *)
Definition get_docstring (body : list stmt) : option string :=
  match body with
  | Expr (Constant (CStr text)) :: _ => Some (cleandoc text)
  | _ => None
  end.

(** Lines 60 and 61. *)
Definition doc_summary (body : list stmt) : result string :=
  let docstring := default "" (get_docstring body) in
  if bool_decide (docstring ≠ "")
  then match splitlines docstring !! 0%nat with
       | Some line => Ok line
       | None => Raise IndexError
       end
  else Ok "".

(** Lines 23 to 71: the route of the function [name] for one of its
    [whitelist] decorators. *)
Definition build_route (name : string) (fargs : arguments) (body : list stmt)
    (decorator : expr) (file_name app_name : string) : result route :=
  methods ← extract_methods decorator;
  let params := build_params fargs methods in
  doc_summary ← doc_summary body;
  mret {| function_name := name;
          path := "/api/methods/" +:+ lower app_name +:+ ".api." +:+ file_name +:+ "." +:+ name;
          method := methods;
          params := params;
          doc := doc_summary;
          responses := ∅;
          tag := file_name |}.

(** Lines 17 to 72: the loop over the decorators of one function;
    [routes] is the list built so far. *)
Fixpoint scan_decorators (name : string) (fargs : arguments) (body : list stmt)
    (decorators : list expr) (file_name app_name : string) (routes : list route)
    : result (list route) :=
  match decorators with
  | [] => Ok routes
  | decorator :: rest =>
      if is_whitelist_call decorator
      then route ← build_route name fargs body decorator file_name app_name;
           scan_decorators name fargs body rest file_name app_name (routes ++ [route])
      else scan_decorators name fargs body rest file_name app_name routes
  end.

(** Lines 15 to 72: the loop over the nodes of the walk. *)
Fixpoint scan_nodes (nodes : list stmt) (file_name app_name : string)
    (routes : list route) : result (list route) :=
  match nodes with
  | [] => Ok routes
  | node :: rest =>
      match node with
      | FunctionDef name fargs body decorator_list =>
          routes' ← scan_decorators name fargs body decorator_list file_name app_name routes;
          scan_nodes rest file_name app_name routes'
      | _ => scan_nodes rest file_name app_name routes
      end
  end.

(** Lines 13 to 74: the scan of a parsed file. *)
Definition scan_tree (tree : module) (file_name app_name : string) : result (list route) :=
  scan_nodes (walk tree) file_name app_name [].

Definition extract_routes_from_file (file_path file_name app_name : string)
    : result (list route) :=
  tree ← parse_file file_path;
  scan_tree tree file_name app_name.

(** Lines 139 to 144: the files of one directory. *)
Fixpoint scan_files (root : string) (files : list string) (app_name : string)
    (all_routes : list route) : result (list route) :=
  match files with
  | [] => Ok all_routes
  | file :: rest =>
      if endswith file ".py"
      then let file_path := path_join root file in
           let file_name := splitext_root file in
           routes ← extract_routes_from_file file_path file_name app_name;
           scan_files root rest app_name (all_routes ++ routes)
      else scan_files root rest app_name all_routes
  end.

(** Lines 138 to 144: the directories that [os.walk] yields. *)
Fixpoint scan_dirs (entries : list (string * list string * list string))
    (app_name : string) (all_routes : list route) : result (list route) :=
  match entries with
  | [] => Ok all_routes
  | (root, _, files) :: rest =>
      all_routes' ← scan_files root files app_name all_routes;
      scan_dirs rest app_name all_routes'
  end.

Definition extract_routes_from_module (module_path app_name : string)
    : result (list route) :=
  scan_dirs (os_walk module_path) app_name [].
End Extractor.

(** ** The Spec Synthesizer *)

(** The schema of a request body: the dict with the keys [type],
    [properties] and [required]. *)
Record object_schema : Type := ObjectSchema {
  object_type : string;
  properties : gmap string schema;
  required_names : list string
}.

(** A media type object, [{"schema": ...}], and a request body,
    [{"content": {...}}]. *)
Record media_type : Type := MediaType { media_schema : object_schema }.
Record request_body : Type := RequestBody { content : gmap string media_type }.

(** An operation: the dict stored at [paths[path][method.lower()]].
    [requestBody] is [None] where Python stores [None]. *)
Record operation : Type := Operation {
  op_summary : string;
  op_description : string;
  op_parameters : list param;
  requestBody : option request_body;
  op_responses : gmap string response;
  op_tags : list string
}.

Record info_object : Type := Info { title : string; version : string }.
Record tag_object : Type := Tag { tag_name : string }.

Record openapi_document : Type := Document {
  openapi : string;
  info : info_object;
  paths : gmap string (gmap constant operation);
  tags : list tag_object
}.

Global Instance response_eq_dec : EqDecision response.
Proof. solve_decision. Defined.

(** [method in ["POST", "PUT"]]. *)
Definition is_post_or_put (m : constant) : bool :=
  bool_decide (m ∈ [CStr "POST"; CStr "PUT"]).

(** Lines 113 to 115: the dict comprehension; a later parameter of the
    same name replaces the entry of an earlier one. *)
Definition properties_of (params : list param) : gmap string schema :=
  foldl (λ props p, <[param_name p := param_schema p]> props) ∅ params.

(** Lines 116 to 120. *)
Definition required_of (params : list param) : list string :=
  param_name <$> filter (λ p, required p) params.

(** Lines 108 to 126. *)
Definition request_body_of (params : list param) : request_body :=
  {| content :=
       {[ "application/json" :=
            {| media_schema :=
                 {| object_type := "object";
                    properties := properties_of params;
                    required_names := required_of params |} |} ]} |}.

Definition default_responses : gmap string response :=
  {[ "200" := {| description := "Successful Response" |} ]}.

(** Lines 104 to 129: the operation of [r] for the method [m]. *)
Definition operation_of (r : route) (m : constant) : operation :=
  {| op_summary := doc r;
     op_description := doc r;
     op_parameters := if negb (is_post_or_put m) then params r else [];
     requestBody := if is_post_or_put m then Some (request_body_of (params r)) else None;
     op_responses := if bool_decide (responses r = ∅) then default_responses else responses r;
     op_tags := [tag r] |}.

Section Synthesizer.
Context `{env : Environment}.

(** [method.lower()]: a [str] and a [bytes] have the method, and give a
    [str] and a [bytes]; the other constants have no such attribute. *)
Definition str_lower (m : constant) : result constant :=
  match m with
  | CStr s => Ok (CStr (lower s))
  | CBytes b => Ok (CBytes (lower_ascii b))
  | _ => Raise AttributeError
  end.

(** Lines 100 to 129: the loop over the methods of one route; [schema_paths]
    is [openapi_schema["paths"]]. *)
Fixpoint add_operations (r : route) (methods : list constant)
    (schema_paths : gmap string (gmap constant operation))
    : result (gmap string (gmap constant operation)) :=
  match methods with
  | [] => Ok schema_paths
  | m :: rest =>
      let schema_paths :=
        if bool_decide (schema_paths !! path r = None)
        then <[path r := ∅]> schema_paths else schema_paths in
      let op := operation_of r m in
      key ← str_lower m;
      add_operations r rest (alter (insert key op) (path r) schema_paths)
  end.

(** Lines 89 to 129: the loop over the routes, on the set of tags and the
    paths. *)
Fixpoint add_routes (routes : list route)
    (state : gset string * gmap string (gmap constant operation))
    : result (gset string * gmap string (gmap constant operation)) :=
  match routes with
  | [] => Ok state
  | r :: rest =>
      let tags := {[ tag r ]} ∪ state.1 in
      schema_paths ← add_operations r (method r) state.2;
      add_routes rest (tags, schema_paths)
  end.

Definition generate_openapi_spec (routes : list route) (app_name : string)
    : result openapi_document :=
  state ← add_routes routes (∅, ∅);
  mret {| openapi := "3.0.0";
          info := {| title := app_name +:+ " API"; version := "1.0.0" |};
          paths := state.2;
          tags := Tag <$> elements state.1 |}.

Definition custom_openapi (module_path app_name : string) : result openapi_document :=
  routes ← extract_routes_from_module module_path app_name;
  generate_openapi_spec routes app_name.

(** The keys [(path, method.lower())] under which the routes are stored. *)
Definition operation_keys (routes : list route) : list (string * result constant) :=
  r ← routes; m ← method r; [(path r, str_lower m)].
End Synthesizer.

(** [schema_paths[p][key]], where both keys are present. *)
Definition stored (schema_paths : gmap string (gmap constant operation)) (p : string)
    (key : constant) : option operation :=
  inner ← schema_paths !! p; inner !! key.

(** [paths[path][key]] of a document. *)
Definition lookup_operation (d : openapi_document) (path : string) (key : constant)
    : option operation :=
  stored (paths d) path key.

(** ** The scan, function by function *)

(** The functions of this part describe the result of the loops above
    without the list under construction; [scan_nodes_spec] and
    [scan_dirs_spec] relate the two. *)

Section ExtractorViews.
Context `{env : Environment}.

(** The routes of one function: one per [whitelist] call among its
    decorators, in their order. *)
Definition function_routes (name : string) (fargs : arguments) (body : list stmt)
    (decorators : list expr) (file_name app_name : string) : result (list route) :=
  mapM (λ decorator, build_route name fargs body decorator file_name app_name)
    (filter (λ decorator, is_whitelist_call decorator) decorators).

Definition node_routes (file_name app_name : string) (node : stmt) : result (list route) :=
  match node with
  | FunctionDef name fargs body decorator_list =>
      function_routes name fargs body decorator_list file_name app_name
  | _ => Ok []
  end.
End ExtractorViews.

Definition is_function_def (node : stmt) : bool :=
  match node with
  | FunctionDef _ _ _ _ => true
  | _ => false
  end.

(** The number of [whitelist] calls among the decorators of a node that
    the scan looks at. *)
Definition whitelist_calls (node : stmt) : nat :=
  match node with
  | FunctionDef _ _ _ decorator_list =>
      length (filter (λ decorator, is_whitelist_call decorator) decorator_list)
  | _ => 0
  end.

(** A matching function: a [def] with a [whitelist] call among its
    decorators. *)
Definition is_matching (node : stmt) : bool :=
  match node with
  | FunctionDef _ _ _ decorator_list => existsb is_whitelist_call decorator_list
  | _ => false
  end.

(** A [methods] value that [methods_of_arg] can read: not a list with an
    element that is no constant. *)
Definition is_constant (e : expr) : bool :=
  match e with
  | Constant _ => true
  | _ => false
  end.

Definition readable_methods (decorator : expr) : bool :=
  match find_methods_arg (call_keywords decorator) with
  | Some (List elts) => forallb is_constant elts
  | _ => true
  end.

Definition readable_node (node : stmt) : bool :=
  match node with
  | FunctionDef _ _ _ decorator_list =>
      forallb (λ decorator, implb (is_whitelist_call decorator) (readable_methods decorator))
        decorator_list
  | _ => true
  end.

(** The [.py] files of a walk, as the pairs [(file_path, file_name)] that
    [extract_routes_from_file] receives, in the order of the walk. *)
Definition py_files (entries : list (string * list string * list string))
    : list (string * string) :=
  entry ← entries;
  file ← filter (λ file, endswith file ".py") entry.2;
  [(path_join entry.1.1 file, splitext_root file)].

(** Every name that a parameter list declares. *)
Definition other_parameters (a : arguments) : list arg :=
  posonlyargs a ++ option_list (vararg a) ++ kwonlyargs a ++ option_list (kwarg a).

(** [value] is the value of the first keyword named [methods]. *)
Definition first_methods_keyword (keywords : list keyword) (value : expr) : Prop :=
  ∃ before after,
    keywords = before ++ (Some "methods", value) :: after
    ∧ Forall (λ kw, kw_arg kw ≠ Some "methods") before.

Definition no_methods_keyword (keywords : list keyword) : Prop :=
  Forall (λ kw, kw_arg kw ≠ Some "methods") keywords.

(** ** The statements of a tree *)

(** A node and all statements nested in it, depth first. *)
Fixpoint subtree (node : stmt) : list stmt :=
  node ::
  match node with
  | FunctionDef _ _ body _ => concat (List.map subtree body)
  | AsyncFunctionDef _ _ body _ => concat (List.map subtree body)
  | ClassDef _ _ body _ => concat (List.map subtree body)
  | If _ body orelse => concat (List.map subtree body) ++ concat (List.map subtree orelse)
  | While _ body orelse => concat (List.map subtree body) ++ concat (List.map subtree orelse)
  | Return _ | Expr _ | Pass => []
  end.

Definition nodes_of (nodes : list stmt) : list stmt := concat (List.map subtree nodes).

(** No character of [s] ends a line. *)
Fixpoint one_line (s : string) : bool :=
  match s with
  | EmptyString => true
  | String c rest =>
      match boundary_length s with
      | 0 => one_line rest
      | S _ => false
      end
  end.

(** No path of the document is left without an operation. *)
Definition no_empty_path (schema_paths : gmap string (gmap constant operation)) : Prop :=
  ∀ p inner, schema_paths !! p = Some inner → inner ≠ ∅.

(** The document of an application without routes. *)
Definition empty_document (app_name : string) : openapi_document :=
  {| openapi := "3.0.0";
     info := {| title := app_name +:+ " API"; version := "1.0.0" |};
     paths := ∅;
     tags := [] |}.

(** ** Sample inputs *)

Definition no_arguments : arguments := Arguments [] [] None [] [] None [].

(** [frappe.whitelist(methods=...)] and [frappe.whitelist()]. *)
Definition whitelist_with (methods : expr) : expr :=
  Call (Attribute (Name "frappe") "whitelist") [] [(Some "methods", methods)].
Definition whitelist_plain : expr :=
  Call (Attribute (Name "frappe") "whitelist") [] [].

(** An environment over a table of files, for ASCII texts: [str.lower] is
    [lower_ascii], every docstring is already clean, a path that is not in
    the table does not parse, and the walk yields the one directory [root]
    with the files of the table. *)
Definition table_environment (root : string) (table : list (string * result module))
    : Environment :=
  {| lower := lower_ascii;
     lower_on_ascii := λ s _, eq_refl;
     cleandoc := λ text, text;
     parse_file := λ file_path,
       default (Raise SyntaxError)
         ((list_to_map ((λ e, (path_join root e.1, e.2)) <$> table) : gmap string (result module))
            !! file_path);
     os_walk := λ _, [(root, [], table.*1)] |}.

(** [def create_order(customer_id, note=None)] under
    [@frappe.whitelist(methods=["POST"])]. *)
Definition create_order : stmt :=
  FunctionDef "create_order"
    (Arguments [] [Arg "customer_id" None; Arg "note" None] None [] [] None [Constant CNone])
    [Return None]
    [whitelist_with (List [Constant (CStr "POST")])].

Definition newline : string := String "010" "".

(** [def list_users(limit, offset)] under
    [@frappe.whitelist(methods=["GET"])], with a docstring of two lines. *)
Definition list_users : stmt :=
  FunctionDef "list_users"
    (Arguments [] [Arg "limit" None; Arg "offset" None] None [] [] None [])
    [Expr (Constant (CStr ("Return all users." +:+ newline +:+ "Details...")));
     Return None]
    [whitelist_with (List [Constant (CStr "GET")])].

Definition list_users_route : route :=
  {| function_name := "list_users";
     path := "/api/methods/myapp.api.users.list_users";
     method := [CStr "GET"];
     params := [ {| param_name := "limit"; param_in := "query"; required := true;
                    param_schema := string_schema |};
                 {| param_name := "offset"; param_in := "query"; required := true;
                    param_schema := string_schema |} ];
     doc := "Return all users.";
     responses := ∅;
     tag := "users" |}.

(** What the scan builds for [create_order] in [orders.py] of the
    application [Shop]. *)
Definition create_order_route : route :=
  {| function_name := "create_order";
     path := "/api/methods/shop.api.orders.create_order";
     method := [CStr "POST"];
     params := [ {| param_name := "customer_id"; param_in := "body"; required := false;
                    param_schema := string_schema |};
                 {| param_name := "note"; param_in := "body"; required := true;
                    param_schema := string_schema |} ];
     doc := "";
     responses := ∅;
     tag := "orders" |}.

(** [def search(a, /, q, limit=10, *rest, sort, **extra)] under
    [@frappe.whitelist()]. *)
Definition search : stmt :=
  FunctionDef "search"
    (Arguments [Arg "a" None] [Arg "q" None; Arg "limit" None] (Some (Arg "rest" None))
       [Arg "sort" None] [None] (Some (Arg "extra" None)) [Constant (CInt 10)])
    [Pass]
    [whitelist_plain].

Definition search_route : route :=
  {| function_name := "search";
     path := "/api/methods/shop.api.catalog.search";
     method := [CStr "POST"];
     params := [ {| param_name := "q"; param_in := "body"; required := false;
                    param_schema := string_schema |};
                 {| param_name := "limit"; param_in := "body"; required := true;
                    param_schema := string_schema |} ];
     doc := "";
     responses := ∅;
     tag := "catalog" |}.

(** A function under two [whitelist] calls. *)
Definition twice_exposed : stmt :=
  FunctionDef "ping" no_arguments [Pass]
    [whitelist_plain; whitelist_with (List [Constant (CStr "GET")])].

(** An environment without files, for the scans of a given tree. *)
Definition no_files : Environment := table_environment "" [].

(** Three directories of an application: the second file of the first
    does not parse in [broken_tree]. *)
Definition shop_tree : Environment :=
  table_environment "app"
    [("orders.py", Ok [create_order]); ("notes.txt", Raise SyntaxError);
     ("catalog.py", Ok [search])].

Definition broken_tree : Environment :=
  table_environment "app"
    [("orders.py", Ok [create_order]); ("broken.py", Raise SyntaxError);
     ("catalog.py", Ok [search])].

(** A file that parses, with [methods=[GET]] on its one function. *)
Definition unreadable_tree : Environment :=
  table_environment "app"
    [("orders.py",
      Ok [FunctionDef "f" no_arguments [Pass] [whitelist_with (List [Name "GET"])]])].

(** The document of the one route [create_order_route]. *)
Definition create_order_document : openapi_document :=
  {| openapi := "3.0.0";
     info := {| title := "Shop API"; version := "1.0.0" |};
     paths := {[ "/api/methods/shop.api.orders.create_order" :=
                   {[ CStr "post" := operation_of create_order_route (CStr "POST") ]} ]};
     tags := [Tag "orders"] |}.

(** A second route with the tag [users], from a file [users.py] of another
    directory, and the document of both. *)
Definition ban_user_route : route :=
  {| function_name := "ban_user";
     path := "/api/methods/myapp.api.users.ban_user";
     method := [CStr "PUT"; CStr "DELETE"];
     params := [ {| param_name := "user"; param_in := "body"; required := true;
                    param_schema := string_schema |} ];
     doc := "";
     responses := ∅;
     tag := "users" |}.

Definition users_document : openapi_document :=
  {| openapi := "3.0.0";
     info := {| title := "MyApp API"; version := "1.0.0" |};
     paths := {[ "/api/methods/myapp.api.users.list_users" :=
                   {[ CStr "get" := operation_of list_users_route (CStr "GET") ]};
                 "/api/methods/myapp.api.users.ban_user" :=
                   {[ CStr "put" := operation_of ban_user_route (CStr "PUT");
                      CStr "delete" := operation_of ban_user_route (CStr "DELETE") ]} ]};
     tags := [Tag "users"] |}.

(** A [def] under a [whitelist] call, nested in a method of a class that
    stands in the branch of an [if]. *)
Definition nested_tree : module :=
  [If (Name "DEBUG")
     [ClassDef "Tools" []
        [FunctionDef "run" no_arguments [twice_exposed; Return None] []] []]
     [Pass]].

(** The application of [shop_tree] with another text in [notes.txt]. *)
Definition shop_tree_with_notes : Environment :=
  table_environment "app"
    [("orders.py", Ok [create_order]); ("notes.txt", Ok [list_users]);
     ("catalog.py", Ok [search])].

(** Two routes of the same path, as two files [health.py] of different
    directories give them, one with the method in lower case. *)
Definition old_ping_route : route :=
  {| function_name := "ping"; path := "/api/methods/shop.api.health.ping";
     method := [CStr "GET"]; params := []; doc := "Old."; responses := ∅;
     tag := "health" |}.

Definition new_ping_route : route :=
  {| function_name := "ping"; path := "/api/methods/shop.api.health.ping";
     method := [CStr "get"]; params := []; doc := "New."; responses := ∅;
     tag := "health" |}.

(** [def f()] under [@frappe.whitelist(methods=5)]. *)
Definition numbered : stmt :=
  FunctionDef "f" no_arguments [Pass] [whitelist_with (Constant (CInt 5))].

(** [def list_users(limit, offset)] with a decorator that is no call. *)
Definition list_users_plain : stmt :=
  FunctionDef "list_users"
    (Arguments [] [Arg "limit" None; Arg "offset" None] None [] [] None [])
    [Return None]
    [Attribute (Name "frappe") "whitelist"; Call (Name "whitelist") [] []].

(** [def find_order(order_id)] under
    [@frappe.whitelist(methods=["GET", "POST"])]. *)
Definition find_order : stmt :=
  FunctionDef "find_order"
    (Arguments [] [Arg "order_id" None] None [] [] None [])
    [Return None]
    [whitelist_with (List [Constant (CStr "GET"); Constant (CStr "POST")])].

Definition find_order_route : route :=
  {| function_name := "find_order";
     path := "/api/methods/shop.api.orders.find_order";
     method := [CStr "GET"; CStr "POST"];
     params := [ {| param_name := "order_id"; param_in := "body"; required := true;
                    param_schema := string_schema |} ];
     doc := "";
     responses := ∅;
     tag := "orders" |}.

(** * Properties *)

Example walk_ex :
  walk [If (Name "c") [Pass; FunctionDef "f" (Arguments [] [] None [] [] None []) [Return None] []] [];
        Expr (Name "x")]
  = [If (Name "c") [Pass; FunctionDef "f" (Arguments [] [] None [] [] None []) [Return None] []] [];
     Expr (Name "x"); Pass;
     FunctionDef "f" (Arguments [] [] None [] [] None []) [Return None] [];
     Return None].
Proof. vm_compute. reflexivity. Qed.

Example lower_ex : lower_ascii "MyApp_9" = "myapp_9".
Proof. reflexivity. Qed.

Example splitlines_ex :
  splitlines ("Return all users." +:+ String "010" "Details..." +:+ String "013" (String "010" (String "010" "x")))
  = ["Return all users."; "Details..."; ""; "x"].
Proof. reflexivity. Qed.

Example splitlines_unicode_ex :
  splitlines ("a" +:+ String "194" (String "133" "b")
              +:+ String "226" (String "128" (String "168" "c"))
              +:+ String "226" (String "128" (String "169" "d"))
              +:+ String "028" "e" +:+ String "226" (String "128" (String "166" "f")))
  = ["a"; "b"; "c"; "d"; "e" +:+ String "226" (String "128" (String "166" "f"))].
Proof. reflexivity. Qed.

Example splitext_root_ex :
  splitext_root "orders.py" = "orders" ∧ splitext_root ".py" = ".py"
  ∧ splitext_root "a.b.py" = "a.b" ∧ splitext_root "..py" = "..py".
Proof. repeat split; reflexivity. Qed.

Example path_join_ex :
  path_join "app/api" "orders.py" = "app/api/orders.py" ∧ path_join "app/" "x.py" = "app/x.py".
Proof. split; reflexivity. Qed.


(** ** The [result] monad *)

Lemma bind_Ok {A B : Type} (c : result A) (k : A → result B) (b : B) :
  c ≫= k = Ok b ↔ ∃ a, c = Ok a ∧ k a = Ok b.
Proof.
  destruct c as [a|e]; simpl; split.
  - eauto.
  - intros (a' & [= <-] & ?); done.
  - done.
  - intros (a' & ? & ?); done.
Qed.

Lemma bind_Raise {A B : Type} (c : result A) (k : A → result B) (e : exn) :
  c ≫= k = Raise e ↔ c = Raise e ∨ ∃ a, c = Ok a ∧ k a = Raise e.
Proof.
  destruct c as [a|e']; simpl; split.
  - eauto.
  - intros [?|(a' & [= <-] & ?)]; done.
  - intros [= ->]; eauto.
  - intros [[= ->]|(a' & ? & ?)]; done.
Qed.

Lemma mapM_result_nil {A B : Type} (f : A → result B) : mapM f [] = Ok [].
Proof. reflexivity. Qed.

Lemma mapM_result_cons {A B : Type} (f : A → result B) (x : A) (l : list A) :
  mapM f (x :: l) = y ← f x; k ← mapM f l; mret (y :: k).
Proof. reflexivity. Qed.

Lemma mapM_result_Ok {A B : Type} (f : A → result B) (l : list A) (k : list B) :
  mapM f l = Ok k ↔ Forall2 (λ x y, f x = Ok y) l k.
Proof.
  revert k. induction l as [|x l IH]; intros k.
  - rewrite mapM_result_nil. split.
    + intros [= <-]. constructor.
    + intros H. inversion H. done.
  - rewrite mapM_result_cons. split.
    + intros (y & Hy & (k' & Hk' & [= <-])%bind_Ok)%bind_Ok.
      constructor; [done|]. by apply IH.
    + intros H. inversion H as [|? y ? k' Hy Hk']; subst.
      rewrite Hy. simpl. apply IH in Hk'. by rewrite Hk'.
Qed.

Lemma mapM_result_total {A B : Type} (f : A → result B) (l : list A) :
  (∀ x, x ∈ l → ∃ y, f x = Ok y) → ∃ k, mapM f l = Ok k.
Proof.
  induction l as [|x l IH]; intros Hall; [by exists []|].
  destruct (Hall x) as [y Hy]; [apply list_elem_of_here|].
  destruct IH as [k Hk]; [intros; apply Hall; by apply list_elem_of_further|].
  exists (y :: k). rewrite mapM_result_cons, Hy. cbn. by rewrite Hk.
Qed.

Lemma mapM_result_app {A B : Type} (f : A → result B) (l1 l2 : list A) :
  mapM f (l1 ++ l2) = k1 ← mapM f l1; k2 ← mapM f l2; mret (k1 ++ k2).
Proof.
  induction l1 as [|x l1 IH].
  - rewrite mapM_result_nil. simpl. by destruct (mapM f l2).
  - rewrite <- app_comm_cons, !mapM_result_cons, IH. destruct (f x); [|done]. simpl.
    destruct (mapM f l1); [|done]. simpl. by destruct (mapM f l2).
Qed.

(** The first element on which [f] raises decides the exception. *)
Lemma mapM_result_Raise {A B : Type} (f : A → result B) (l : list A) (e : exn) :
  mapM f l = Raise e ↔
  ∃ l1 x l2 k1, l = l1 ++ x :: l2 ∧ mapM f l1 = Ok k1 ∧ f x = Raise e.
Proof.
  induction l as [|x l IH].
  - rewrite mapM_result_nil. split; [done|].
    intros (l1 & y & l2 & k1 & Hl & _). by destruct l1.
  - rewrite mapM_result_cons. split.
    + intros [Hx|(y & Hy & [Hl|(k & _ & ?)]%bind_Raise)]%bind_Raise; [| |done].
      * exists [], x, l, []. done.
      * apply IH in Hl as (l1 & z & l2 & k1 & -> & Hk1 & Hz).
        exists (x :: l1), z, l2, (y :: k1). split; [done|]. split; [|done].
        rewrite mapM_result_cons, Hy, Hk1. done.
    + intros (l1 & z & l2 & k1 & Hl & Hk1 & Hz). destruct l1 as [|x' l1].
      * simpl in Hl. injection Hl as -> ->. by rewrite Hz.
      * simpl in Hl. injection Hl as -> ->.
        rewrite mapM_result_cons in Hk1.
        apply bind_Ok in Hk1 as (y & Hy & (k & Hk & _)%bind_Ok).
        rewrite Hy. simpl.
        assert (mapM f (l1 ++ z :: l2) = Raise e) as ->; [|done].
        apply IH. eauto 10.
Qed.

(** ** Lines and docstrings *)

Lemma splitlines_from_nonempty (after_cr : bool) (line s : string) :
  (line ≠ "" → splitlines_from after_cr 0 line s ≠ [])
  ∧ (after_cr = false → s ≠ "" → splitlines_from after_cr 0 line s ≠ []).
Proof.
  revert after_cr line. induction s as [|c rest IH]; intros after_cr line.
  - simpl. split; [|done]. intros Hline. by rewrite bool_decide_eq_false_2.
  - cbn [splitlines_from].
    destruct (after_cr && bool_decide (c = "010"%char)) eqn:Hcr.
    + apply andb_true_iff in Hcr as [-> _]. split; [|done]. apply IH.
    + destruct (boundary_length (String c rest)); [|done].
      assert (line +:+ String c "" ≠ "") as Hne by (by destruct line).
      split; [intros _|intros _ _]; apply (proj1 (IH false _) Hne).
Qed.

Lemma splitlines_nonempty (s : string) : s ≠ "" → splitlines s ≠ [].
Proof. intros. by apply splitlines_from_nonempty. Qed.

Section ExtractorFacts.
Context `{env : Environment}.

(** Lines 60 and 61 raise nothing. *)
Lemma doc_summary_total (body : list stmt) : ∃ line, doc_summary body = Ok line.
Proof.
  unfold doc_summary. case_bool_decide as Hdoc; [|eauto].
  apply splitlines_nonempty in Hdoc.
  destruct (splitlines _) as [|line lines]; [done|]. simpl. eauto.
Qed.

Lemma build_route_Ok name fargs body decorator file_name app_name r :
  build_route name fargs body decorator file_name app_name = Ok r ↔
  ∃ methods line,
    extract_methods decorator = Ok methods ∧ doc_summary body = Ok line
    ∧ r = {| function_name := name;
             path := "/api/methods/" +:+ lower app_name +:+ ".api." +:+ file_name +:+ "." +:+ name;
             method := methods;
             params := build_params fargs methods;
             doc := line;
             responses := ∅;
             tag := file_name |}.
Proof.
  unfold build_route. split.
  - intros (methods & Hm & (line & Hl & [= <-])%bind_Ok)%bind_Ok. eauto.
  - intros (methods & line & -> & -> & ->). done.
Qed.

Lemma build_route_Raise name fargs body decorator file_name app_name e :
  build_route name fargs body decorator file_name app_name = Raise e ↔
  extract_methods decorator = Raise e.
Proof.
  unfold build_route. destruct (doc_summary_total body) as [line ->].
  destruct (extract_methods decorator); cbn; [split; discriminate|split; congruence].
Qed.

Lemma scan_decorators_spec name fargs body decorators file_name app_name routes :
  scan_decorators name fargs body decorators file_name app_name routes =
  rs ← function_routes name fargs body decorators file_name app_name; mret (routes ++ rs).
Proof.
  unfold function_routes. revert routes.
  induction decorators as [|decorator rest IH]; intros routes; simpl.
  - by rewrite app_nil_r.
  - rewrite filter_cons. destruct (is_whitelist_call decorator) eqn:Hd; simpl.
    + destruct (build_route _ _ _ decorator _ _) as [r|e]; [|done]. simpl.
      rewrite IH. destruct (mapM _ _); [|done]. cbn. by rewrite <- app_assoc.
    + apply IH.
Qed.

Lemma scan_nodes_spec nodes file_name app_name routes :
  scan_nodes nodes file_name app_name routes =
  rss ← mapM (node_routes file_name app_name) nodes; mret (routes ++ concat rss).
Proof.
  revert routes. induction nodes as [|node rest IH]; intros routes.
  - simpl. by rewrite app_nil_r.
  - rewrite mapM_result_cons.
    assert (∀ rs, node_routes file_name app_name node = Ok rs →
      scan_nodes rest file_name app_name (routes ++ rs) =
      k ← mapM (node_routes file_name app_name) rest; mret (routes ++ concat (rs :: k)))
      as Hstep.
    { intros rs _. rewrite IH. destruct (mapM _ rest); [|done]. simpl.
      by rewrite app_assoc. }
    destruct node; simpl;
      try (specialize (Hstep [] eq_refl); rewrite app_nil_r in Hstep; rewrite Hstep;
           by destruct (mapM _ rest)).
    rewrite scan_decorators_spec.
    destruct (function_routes _ _ _ _ _ _) as [rs|e] eqn:Hrs; [|done]. simpl.
    rewrite IH. destruct (mapM _ rest); [|done]. simpl. by rewrite app_assoc.
Qed.

Lemma scan_tree_spec tree file_name app_name :
  scan_tree tree file_name app_name =
  rss ← mapM (node_routes file_name app_name) (walk tree); mret (concat rss).
Proof. unfold scan_tree. by rewrite scan_nodes_spec. Qed.

Lemma py_files_single root dirs files :
  py_files [(root, dirs, files)] =
  (λ file, (path_join root file, splitext_root file))
    <$> filter (λ file, endswith file ".py") files.
Proof.
  unfold py_files. cbn. rewrite app_nil_r.
  induction (filter _ files) as [|file rest IH]; [done|]. cbn. by rewrite IH.
Qed.

Lemma scan_files_spec root files app_name all_routes :
  scan_files root files app_name all_routes =
  rss ← mapM (λ f, extract_routes_from_file f.1 f.2 app_name)
        (py_files [(root, [], files)]);
  mret (all_routes ++ concat rss).
Proof.
  rewrite py_files_single. revert all_routes.
  induction files as [|file rest IH]; intros all_routes; simpl.
  - by rewrite app_nil_r.
  - rewrite filter_cons. destruct (endswith file ".py") eqn:Hpy; simpl.
    + destruct (extract_routes_from_file _ _ _) as [rs|e]; [|done]. simpl.
      rewrite IH. destruct (mapM _ _); [|done]. cbn. by rewrite app_assoc.
    + apply IH.
Qed.

Lemma py_files_cons root dirs files entries :
  py_files ((root, dirs, files) :: entries) =
  py_files [(root, [], files)] ++ py_files entries.
Proof. unfold py_files. cbn. by rewrite app_nil_r. Qed.

Lemma scan_dirs_spec entries app_name all_routes :
  scan_dirs entries app_name all_routes =
  rss ← mapM (λ f, extract_routes_from_file f.1 f.2 app_name) (py_files entries);
  mret (all_routes ++ concat rss).
Proof.
  revert all_routes. induction entries as [|[[root dirs] files] rest IH]; intros all_routes.
  - simpl. by rewrite app_nil_r.
  - rewrite py_files_cons, mapM_result_app. cbn [scan_dirs].
    rewrite scan_files_spec.
    destruct (mapM _ (py_files [(root, [], files)])) as [rss1|e]; [|done]. cbn.
    rewrite IH. destruct (mapM _ (py_files rest)) as [rss2|e]; [|done]. cbn.
    by rewrite concat_app, app_assoc.
Qed.

Lemma extract_routes_from_module_spec module_path app_name :
  extract_routes_from_module module_path app_name =
  rss ← mapM (λ f, extract_routes_from_file f.1 f.2 app_name)
        (py_files (os_walk module_path));
  mret (concat rss).
Proof. unfold extract_routes_from_module. by rewrite scan_dirs_spec. Qed.
End ExtractorFacts.

(** ** The methods of a decorator *)

Lemma find_methods_arg_Some (keywords : list keyword) (value : expr) :
  find_methods_arg keywords = Some value ↔ first_methods_keyword keywords value.
Proof.
  unfold first_methods_keyword. induction keywords as [|[a v] rest IH]; simpl.
  - split; [done|]. intros (before & after & Hnil & _). by destruct before.
  - unfold kw_arg, kw_value. simpl. case_bool_decide as Ha.
    + split.
      * intros [= ->]. exists [], rest. subst a. split; [done|constructor].
      * intros (before & after & Heq & Hbefore). destruct before as [|kw before].
        -- simpl in Heq. by injection Heq as _ -> _.
        -- simpl in Heq. injection Heq as <- _. by inversion Hbefore.
    + rewrite IH. split.
      * intros (before & after & -> & Hbefore). exists ((a, v) :: before), after.
        split; [done|]. by constructor.
      * intros (before & after & Heq & Hbefore). destruct before as [|kw before].
        -- simpl in Heq. by injection Heq as -> _ _.
        -- simpl in Heq. injection Heq as <- ->. inversion Hbefore; eauto.
Qed.

Lemma find_methods_arg_None (keywords : list keyword) :
  find_methods_arg keywords = None ↔ no_methods_keyword keywords.
Proof.
  unfold no_methods_keyword. induction keywords as [|kw rest IH]; simpl.
  - split; [constructor|done].
  - case_bool_decide as Ha.
    + split; [done|]. by inversion 1.
    + rewrite IH. split; [by constructor|by inversion 1].
Qed.

Lemma mapM_attr_s_constants (values : list constant) :
  mapM attr_s (Constant <$> values) = Ok values.
Proof. apply mapM_result_Ok. induction values; constructor; done. Qed.

Lemma mapM_attr_s_other (elts : list expr) :
  Exists (λ e, is_constant e = false) elts → mapM attr_s elts = Raise AttributeError.
Proof.
  induction elts as [|e rest IH]; intros Hex; [by inversion Hex|].
  rewrite mapM_result_cons. destruct e; try done. simpl.
  inversion Hex as [? ? Hhd|? ? Htl]; [done|]. by rewrite IH.
Qed.

Lemma forallb_is_constant (elts : list expr) :
  forallb is_constant elts = true → ∃ values, elts = Constant <$> values.
Proof.
  induction elts as [|e rest IH]; simpl; [by exists []|].
  intros [He [values ->]%IH]%andb_true_iff. destruct e; try done.
  by exists (value :: values).
Qed.

Lemma forallb_is_constant_false (elts : list expr) :
  forallb is_constant elts = false → Exists (λ e, is_constant e = false) elts.
Proof.
  induction elts as [|e rest IH]; simpl; [done|].
  intros [He|Hrest]%andb_false_iff; [by left|]. right. by apply IH.
Qed.

Lemma extract_methods_readable (decorator : expr) :
  readable_methods decorator = true ↔ ∃ methods, extract_methods decorator = Ok methods.
Proof.
  unfold readable_methods, extract_methods, methods_of_arg.
  destruct (find_methods_arg _) as [[]|]; try (split; eauto; done).
  split.
  - intros [values ->]%forallb_is_constant. rewrite mapM_attr_s_constants. eauto.
  - intros [methods Hm]. destruct (forallb is_constant elts) eqn:Hall; [done|].
    apply forallb_is_constant_false, mapM_attr_s_other in Hall. congruence.
Qed.

Lemma extract_methods_unreadable (decorator : expr) :
  readable_methods decorator = false ↔ extract_methods decorator = Raise AttributeError.
Proof.
  unfold readable_methods, extract_methods, methods_of_arg.
  destruct (find_methods_arg _) as [[]|]; try (split; done).
  split.
  - by intros ?%forallb_is_constant_false%mapM_attr_s_other.
  - intros Hm. destruct (forallb is_constant elts) eqn:Hall; [|done].
    apply forallb_is_constant in Hall as [values ->].
    rewrite mapM_attr_s_constants in Hm. done.
Qed.

(** The methods of a [whitelist] decorator, shape by shape.  They are
    read from the value of its first keyword named [methods]: a list of
    constants gives the values of its elements, in order; a list with an
    element that is no constant raises [AttributeError]; a single constant
    gives the one-element list of its value; without such a keyword, or
    with a value that is neither a list nor a constant, the methods are
    exactly [["POST"]].  Whenever the methods are read, the route of the
    function is built with them and nothing else raises. *)
Theorem methods_extraction (decorator : expr) :
  let keywords := call_keywords decorator in
  (∀ values, first_methods_keyword keywords (List (Constant <$> values)) →
     extract_methods decorator = Ok values)
  ∧ (∀ elts, first_methods_keyword keywords (List elts) →
       Exists (λ e, is_constant e = false) elts →
       extract_methods decorator = Raise AttributeError)
  ∧ (∀ value, first_methods_keyword keywords (Constant value) →
       extract_methods decorator = Ok [value])
  ∧ (no_methods_keyword keywords → extract_methods decorator = Ok [CStr "POST"])
  ∧ (∀ e, first_methods_keyword keywords e →
       (∀ elts, e ≠ List elts) → (∀ value, e ≠ Constant value) →
       extract_methods decorator = Ok [CStr "POST"])
  ∧ (∀ (env : Environment) name fargs body file_name app_name methods,
       extract_methods decorator = Ok methods →
       ∃ r, build_route name fargs body decorator file_name app_name = Ok r
            ∧ method r = methods).
Proof.
  intros keywords. unfold extract_methods. fold keywords.
  repeat split.
  - intros values ->%find_methods_arg_Some. apply mapM_attr_s_constants.
  - intros elts ->%find_methods_arg_Some Hex. by apply mapM_attr_s_other.
  - by intros value ->%find_methods_arg_Some.
  - by intros ->%find_methods_arg_None.
  - intros e ->%find_methods_arg_Some Hlist Hconst. destruct e; try done.
    + by destruct (Hconst value).
    + by destruct (Hlist elts).
  - intros env name fargs body file_name app_name methods Hm.
    destruct (doc_summary_total body) as [line Hline].
    eexists. split; [apply build_route_Ok; eauto|done].
Qed.

Lemma methods_extraction_witness :
  extract_methods (whitelist_with (List [Constant (CStr "GET"); Constant (CStr "PUT")]))
    = Ok [CStr "GET"; CStr "PUT"]
  ∧ extract_methods (whitelist_with (Constant (CStr "GET"))) = Ok [CStr "GET"]
  ∧ extract_methods whitelist_plain = Ok [CStr "POST"]
  ∧ extract_methods (whitelist_with (Name "ALL")) = Ok [CStr "POST"].
Proof.
  split; [|split; [|split]].
  - apply (proj1 (methods_extraction _) [CStr "GET"; CStr "PUT"]).
    exists [], []. split; [reflexivity|constructor].
  - apply (proj1 (proj2 (proj2 (methods_extraction _))) (CStr "GET")).
    exists [], []. split; [reflexivity|constructor].
  - apply (proj1 (proj2 (proj2 (proj2 (methods_extraction _))))). constructor.
  - apply (proj1 (proj2 (proj2 (proj2 (proj2 (methods_extraction _))))) (Name "ALL")).
    + exists [], []. split; [reflexivity|constructor].
    + intros elts; discriminate.
    + intros value; discriminate.
Defined.

(** C2, on the code.  A [methods] list with an element that is no
    constant, such as [methods=[GET]], does not give [["POST"]]: reading it
    raises [AttributeError], and the scan of the file raises with it.  The
    same name outside a list, [methods=GET], and every other value that is
    neither a list nor a constant give [["POST"]] and raise nothing. *)
Theorem methods_list_with_name_raises :
  (∀ elts, Exists (λ e, is_constant e = false) elts →
     extract_methods (whitelist_with (List elts)) = Raise AttributeError)
  ∧ (∀ e, (∀ elts, e ≠ List elts) → (∀ value, e ≠ Constant value) →
       extract_methods (whitelist_with e) = Ok [CStr "POST"])
  ∧ extract_methods (whitelist_with (List [Name "GET"])) = Raise AttributeError
  ∧ extract_methods (whitelist_with (List [Name "GET"])) ≠ Ok [CStr "POST"]
  ∧ scan_tree (env := table_environment "" [])
      [FunctionDef "f" no_arguments [Pass] [whitelist_with (List [Name "GET"])]]
      "orders" "Shop"
    = Raise AttributeError
  ∧ extract_methods (whitelist_with (Name "GET")) = Ok [CStr "POST"].
Proof.
  split; [|split].
  - intros elts Hex. unfold extract_methods. simpl. by apply mapM_attr_s_other.
  - intros e Hlist Hconst. unfold extract_methods. simpl. destruct e; try done.
    + by destruct (Hconst value).
    + by destruct (Hlist elts).
  - repeat split; done.
Qed.

(** ** Where a route comes from *)

Lemma elem_of_concat {A : Type} (x : A) (ls : list (list A)) :
  x ∈ concat ls ↔ ∃ l, x ∈ l ∧ l ∈ ls.
Proof.
  rewrite list_elem_of_In, in_concat. split.
  - intros (l & Hl & Hx). exists l. by rewrite !list_elem_of_In.
  - intros (l & Hx & Hl). exists l. by rewrite <- !list_elem_of_In.
Qed.

Section Provenance.
Context `{env : Environment}.

Lemma function_routes_Ok name fargs body decorators file_name app_name rs :
  function_routes name fargs body decorators file_name app_name = Ok rs →
  length rs = length (filter (λ d, is_whitelist_call d) decorators)
  ∧ ∀ r, r ∈ rs →
      ∃ decorator, decorator ∈ decorators ∧ is_whitelist_call decorator = true
        ∧ build_route name fargs body decorator file_name app_name = Ok r.
Proof.
  unfold function_routes. intros Hrs%mapM_result_Ok. split.
  - symmetry. by eapply Forall2_length.
  - intros r Hr. apply list_elem_of_lookup in Hr as [i Hi].
    destruct (Forall2_lookup_r _ _ _ _ _ Hrs Hi) as (d & Hd & Hbuild).
    apply list_elem_of_lookup_2, list_elem_of_filter in Hd as [Hcall Hd].
    exists d. split; [done|]. split; [by apply Is_true_eq_true|done].
Qed.

(** Every route of a scan was built for a [whitelist] call that decorates
    a [def] node of the walk. *)
Lemma scan_tree_provenance tree file_name app_name routes r :
  scan_tree tree file_name app_name = Ok routes → r ∈ routes →
  ∃ name fargs body decorator_list decorator,
    FunctionDef name fargs body decorator_list ∈ walk tree
    ∧ decorator ∈ decorator_list ∧ is_whitelist_call decorator = true
    ∧ build_route name fargs body decorator file_name app_name = Ok r.
Proof.
  rewrite scan_tree_spec.
  intros (rss & Hrss%mapM_result_Ok & [= <-])%bind_Ok Hr.
  apply elem_of_concat in Hr as (rs & Hr & Hrs).
  apply list_elem_of_lookup in Hrs as [i Hi].
  destruct (Forall2_lookup_r _ _ _ _ _ Hrss Hi) as (node & Hnode & Hroutes).
  apply list_elem_of_lookup_2 in Hnode.
  destruct node; simpl in Hroutes;
    try (injection Hroutes as <-; by apply not_elem_of_nil in Hr).
  apply function_routes_Ok in Hroutes as [_ Hfrom].
  destruct (Hfrom r Hr) as (d & ? & ? & ?). eauto 10.
Qed.

(** The scan succeeds exactly on the trees in which every [whitelist]
    call has a readable [methods] value. *)
Lemma scan_tree_total tree file_name app_name :
  forallb readable_node (walk tree) = true ↔
  ∃ routes, scan_tree tree file_name app_name = Ok routes.
Proof.
  rewrite scan_tree_spec. unfold walk. generalize (walk_queue tree) as nodes.
  assert (∀ node, readable_node node = true ↔
            ∃ rs, node_routes file_name app_name node = Ok rs) as Hnode.
  { intros node. destruct node; simpl; try (split; eauto; done).
    unfold function_routes. induction decorator_list as [|d ds IH]; simpl.
    - split; eauto.
    - rewrite filter_cons. destruct (is_whitelist_call d) eqn:Hd; simpl.
      + rewrite andb_true_iff, IH, extract_methods_readable. split.
        * intros [[ms Hms] [rs Hrs]].
          destruct (doc_summary_total body) as [line Hline].
          erewrite (proj2 (build_route_Ok _ _ _ _ _ _ _)) by eauto.
          cbn. rewrite Hrs. cbn. eauto.
        * intros [rs (r & Hr & (k & Hk & _)%bind_Ok)%bind_Ok].
          apply build_route_Ok in Hr as (ms & ? & ? & ? & ?). eauto.
      + apply IH. }
  intros nodes. induction nodes as [|node rest IH]; simpl.
  - split; eauto.
  - rewrite andb_true_iff, Hnode, IH. split.
    + intros [[rs Hrs] [routes (rss & Hrss & _)%bind_Ok]].
      rewrite Hrs. cbn. rewrite Hrss. cbn. eauto.
    + intros [routes (rss & (rs & Hrs & (k & Hk & [= <-])%bind_Ok)%bind_Ok & _)%bind_Ok].
      split; [eauto|]. rewrite Hk. cbn. eauto.
Qed.

Lemma build_params_names fargs methods :
  param_name <$> build_params fargs methods = arg_name <$> args fargs.
Proof.
  unfold build_params, padded_defaults.
  rewrite <- list_fmap_compose.
  assert (length (args fargs)
          ≤ length ((Some <$> defaults fargs)
                    ++ replicate (length (args fargs) - length (defaults fargs)) None))
    as Hlen by (rewrite length_app, length_fmap, length_replicate; lia).
  revert Hlen. generalize ((Some <$> defaults fargs)
    ++ replicate (length (args fargs) - length (defaults fargs)) None).
  induction (args fargs) as [|a rest IH]; intros [|d ds] Hlen; simpl in *;
    [done|done|lia|].
  f_equal. apply IH. lia.
Qed.

Lemma build_params_location fargs methods :
  Forall (λ p, param_in p = location methods) (build_params fargs methods).
Proof. unfold build_params. apply Forall_fmap, Forall_true. done. Qed.
End Provenance.

Example scan_list_users :
  scan_tree (env := no_files) [list_users] "users" "MyApp" = Ok [list_users_route].
Proof. vm_compute. reflexivity. Qed.

Example scan_create_order :
  scan_tree (env := no_files) [create_order] "orders" "Shop" = Ok [create_order_route].
Proof. vm_compute. reflexivity. Qed.

Example scan_search :
  scan_tree (env := no_files) [search] "catalog" "Shop" = Ok [search_route].
Proof. vm_compute. reflexivity. Qed.

(** ** The routes of a scan *)

(** C6.  In every route of a scan all parameters have the same location:
    [body] when [POST] or [PUT] is among the methods of the route, [query]
    otherwise; with the methods [["GET"]] every location is [query], with
    [["POST"]] every location is [body]. *)
Theorem params_location `{env : Environment} tree file_name app_name routes r :
  scan_tree tree file_name app_name = Ok routes → r ∈ routes →
  (CStr "POST" ∈ method r ∨ CStr "PUT" ∈ method r →
     Forall (λ p, param_in p = "body") (params r))
  ∧ (CStr "POST" ∉ method r → CStr "PUT" ∉ method r →
       Forall (λ p, param_in p = "query") (params r))
  ∧ (method r = [CStr "GET"] → Forall (λ p, param_in p = "query") (params r))
  ∧ (method r = [CStr "POST"] → Forall (λ p, param_in p = "body") (params r)).
Proof.
  intros Hscan Hr.
  destruct (scan_tree_provenance _ _ _ _ _ Hscan Hr)
    as (name & fargs & body & ds & d & _ & _ & _ & Hbuild).
  apply build_route_Ok in Hbuild as (methods & line & _ & _ & ->). simpl.
  pose proof (build_params_location fargs methods) as Hloc. unfold location in Hloc.
  assert (CStr "POST" ∈ methods ∨ CStr "PUT" ∈ methods →
          Forall (λ p, param_in p = "body") (build_params fargs methods)) as Hbody.
  { intros Hin. eapply Forall_impl; [exact Hloc|]. intros p ->.
    destruct Hin as [Hin|Hin].
    - by rewrite (bool_decide_eq_true_2 _ Hin).
    - rewrite (bool_decide_eq_true_2 _ Hin). by rewrite orb_true_r. }
  assert (CStr "POST" ∉ methods → CStr "PUT" ∉ methods →
          Forall (λ p, param_in p = "query") (build_params fargs methods)) as Hquery.
  { intros Hpost Hput. eapply Forall_impl; [exact Hloc|]. intros p ->.
    by rewrite (bool_decide_eq_false_2 _ Hpost), (bool_decide_eq_false_2 _ Hput). }
  split; [done|]. split; [done|]. split.
  - intros ->. apply Hquery; intros Hin; apply list_elem_of_singleton in Hin; done.
  - intros ->. apply Hbody. left. apply list_elem_of_here.
Qed.

Lemma params_location_witness :
  Forall (λ p, param_in p = "query") (params list_users_route)
  ∧ Forall (λ p, param_in p = "body") (params create_order_route).
Proof.
  split.
  - apply (params_location (env := no_files) [list_users] "users" "MyApp"
             [list_users_route] list_users_route);
      [vm_compute; reflexivity | apply list_elem_of_here | reflexivity].
  - apply (params_location (env := no_files) [create_order] "orders" "Shop"
             [create_order_route] create_order_route);
      [vm_compute; reflexivity | apply list_elem_of_here | reflexivity].
Defined.

(** C7.  The path of every route of a scan is [/api/methods/], the
    lower-cased application name, [.api.], the file name as given, a dot and
    the name of the function as written in its [def]; the application
    [MyApp], the file [users] and the function [list_users] give
    [/api/methods/myapp.api.users.list_users]. *)
Theorem route_path `{env : Environment} tree file_name app_name routes r :
  scan_tree tree file_name app_name = Ok routes → r ∈ routes →
  path r = "/api/methods/" +:+ lower app_name +:+ ".api." +:+ file_name +:+ "."
             +:+ function_name r
  ∧ (∃ fargs body decorator_list,
       FunctionDef (function_name r) fargs body decorator_list ∈ walk tree)
  ∧ (app_name = "MyApp" → file_name = "users" → function_name r = "list_users" →
     path r = "/api/methods/myapp.api.users.list_users").
Proof.
  intros Hscan Hr.
  destruct (scan_tree_provenance _ _ _ _ _ Hscan Hr)
    as (name & fargs & body & ds & d & Hnode & _ & _ & Hbuild).
  apply build_route_Ok in Hbuild as (methods & line & _ & _ & ->). simpl.
  split; [done|]. split; [eauto|]. intros -> -> ->.
  by rewrite (lower_on_ascii "MyApp").
Qed.

Lemma route_path_witness :
  path list_users_route = "/api/methods/myapp.api.users.list_users".
Proof.
  apply (route_path (env := no_files) [list_users] "users" "MyApp"
           [list_users_route] list_users_route);
    [vm_compute; reflexivity | apply list_elem_of_here | reflexivity ..].
Defined.

(** C10.  The parameters of every route of a scan are the plain
    positional-or-keyword parameters ([args.args]) of its function, one
    each and in their order; where the declared names are distinct, no
    positional-only or keyword-only parameter, nor [*args] or [**kwargs],
    is among them. *)
Theorem params_are_positional_or_keyword `{env : Environment}
    tree file_name app_name routes r :
  scan_tree tree file_name app_name = Ok routes → r ∈ routes →
  ∃ fargs body decorator_list,
    FunctionDef (function_name r) fargs body decorator_list ∈ walk tree
    ∧ param_name <$> params r = arg_name <$> args fargs
    ∧ (NoDup (arg_name <$> (args fargs ++ other_parameters fargs)) →
       ∀ a, a ∈ other_parameters fargs → arg_name a ∉ param_name <$> params r).
Proof.
  intros Hscan Hr.
  destruct (scan_tree_provenance _ _ _ _ _ Hscan Hr)
    as (name & fargs & body & ds & d & Hnode & _ & _ & Hbuild).
  apply build_route_Ok in Hbuild as (methods & line & _ & _ & ->). simpl.
  exists fargs, body, ds. split; [done|]. split; [apply build_params_names|].
  rewrite build_params_names, fmap_app. intros [_ [Hdisjoint _]]%NoDup_app a Ha Hin.
  apply (Hdisjoint (arg_name a)); [done|]. by apply list_elem_of_fmap_2.
Qed.

Lemma params_are_positional_or_keyword_witness :
  ∃ fargs body decorator_list,
    FunctionDef "search" fargs body decorator_list ∈ walk [search]
    ∧ ["q"; "limit"] = arg_name <$> args fargs
    ∧ (NoDup (arg_name <$> (args fargs ++ other_parameters fargs)) →
       ∀ a, a ∈ other_parameters fargs → arg_name a ∉ ["q"; "limit"]).
Proof.
  apply (params_are_positional_or_keyword (env := no_files) [search] "catalog" "Shop"
           [search_route] search_route);
    [vm_compute; reflexivity | apply list_elem_of_here].
Defined.

(** ** Which nodes give routes *)

Section Nodes.
Context `{env : Environment}.

Lemma scan_nodes_function_defs nodes file_name app_name routes :
  scan_nodes nodes file_name app_name routes =
  scan_nodes (filter (λ node, is_function_def node) nodes) file_name app_name routes.
Proof.
  revert routes. induction nodes as [|node rest IH]; intros routes; [done|].
  rewrite filter_cons. destruct node; simpl; try apply IH.
  destruct (scan_decorators _ _ _ _ _ _ _); [|done]. apply IH.
Qed.

Lemma node_routes_length file_name app_name node rs :
  node_routes file_name app_name node = Ok rs →
  length rs = whitelist_calls node
  ∧ ∀ r, r ∈ rs → ∃ fargs body decorator_list,
      node = FunctionDef (function_name r) fargs body decorator_list.
Proof.
  destruct node; simpl; try (intros [= <-]; split; [done|by intros r ?%not_elem_of_nil]).
  intros [Hlen Hfrom]%function_routes_Ok. split; [done|].
  intros r Hr. destruct (Hfrom r Hr) as (d & _ & _ & Hbuild).
  apply build_route_Ok in Hbuild as (methods & line & _ & _ & ->). simpl. eauto.
Qed.
End Nodes.

Lemma length_concat_Forall2 {A B : Type} (f : A → nat) (l : list A) (ks : list (list B)) :
  Forall2 (λ x k, length k = f x) l ks → length (concat ks) = sum_list (f <$> l).
Proof.
  induction 1 as [|x k l ks Hk _ IH]; [done|].
  simpl. rewrite length_app, Hk, IH. done.
Qed.

(** C3, as the code has it.  A scan gives one route for every [whitelist]
    call in the decorator list of every [def] of the walk, node after node:
    a function with exactly one such call gives exactly one route, a
    function with [n] of them gives [n] routes, all with the name of the
    function. *)
Theorem one_route_per_whitelist_call `{env : Environment} tree file_name app_name routes :
  scan_tree tree file_name app_name = Ok routes →
  (∃ rss, routes = concat rss
     ∧ Forall2 (λ node rs,
          length rs = whitelist_calls node
          ∧ (whitelist_calls node = 1 → ∃ r, rs = [r])
          ∧ ∀ r, r ∈ rs → ∃ fargs body decorator_list,
              node = FunctionDef (function_name r) fargs body decorator_list)
         (walk tree) rss)
  ∧ length routes = sum_list (whitelist_calls <$> walk tree).
Proof.
  rewrite scan_tree_spec. intros (rss & Hrss%mapM_result_Ok & [= <-])%bind_Ok.
  assert (Forall2 (λ node rs, length rs = whitelist_calls node
                    ∧ ∀ r, r ∈ rs → ∃ fargs body decorator_list,
                        node = FunctionDef (function_name r) fargs body decorator_list)
            (walk tree) rss) as Hall.
  { eapply Forall2_impl; [exact Hrss|]. intros node rs. apply node_routes_length. }
  split.
  - exists rss. split; [done|]. eapply Forall2_impl; [exact Hall|].
    intros node rs [Hlen Hfrom]. split; [done|]. split; [|done].
    intros Hone. rewrite Hone in Hlen. destruct rs as [|r [|]]; try done. eauto.
  - apply length_concat_Forall2. eapply Forall2_impl; [exact Hall|]. by intros ? ? [].
Qed.

Lemma one_route_per_whitelist_call_witness :
  length [create_order_route] = sum_list (whitelist_calls <$> walk [create_order]).
Proof.
  apply (one_route_per_whitelist_call (env := no_files) [create_order] "orders" "Shop"
           [create_order_route]).
  vm_compute. reflexivity.
Defined.

(** C3 as stated fails: a tree with one matching function, decorated with
    two [whitelist] calls, gives two routes. *)
Lemma one_route_per_whitelist_call_counterexample :
  length (filter (λ node, is_matching node) (walk [twice_exposed])) = 1
  ∧ ∃ r1 r2,
      scan_tree (env := no_files) [twice_exposed] "health" "Shop" = Ok [r1; r2]
      ∧ function_name r1 = "ping" ∧ function_name r2 = "ping"
      ∧ method r1 = [CStr "POST"] ∧ method r2 = [CStr "GET"].
Proof.
  split; [vm_compute; reflexivity|].
  eexists _, _. split; [vm_compute; reflexivity|]. done.
Qed.

(** C9.  Only the [def] nodes of the walk are scanned: the scan of a tree
    is the scan of its [def] nodes alone, so an [async def] gives no route,
    whatever its decorators; a file that holds one [async def] gives the
    routes of the statements nested in it, and none when its body is
    [pass]. *)
Theorem async_def_gives_no_route `{env : Environment} file_name app_name :
  (∀ tree, scan_tree tree file_name app_name =
           scan_nodes (filter (λ node, is_function_def node) (walk tree))
             file_name app_name [])
  ∧ (∀ name fargs body decorator_list,
       scan_tree [AsyncFunctionDef name fargs body decorator_list] file_name app_name
       = scan_tree body file_name app_name)
  ∧ (∀ name fargs decorator_list,
       scan_tree [AsyncFunctionDef name fargs [Pass] decorator_list] file_name app_name
       = Ok []).
Proof.
  assert (∀ name fargs body decorator_list,
    scan_tree [AsyncFunctionDef name fargs body decorator_list] file_name app_name
    = scan_tree body file_name app_name) as Hasync.
  { intros. unfold scan_tree, walk. by simp walk_queue. }
  split; [intros; apply scan_nodes_function_defs|]. split; [done|].
  intros. rewrite Hasync. unfold scan_tree, walk. by simp walk_queue.
Qed.

Lemma build_params_required (fargs : arguments) (methods : list constant) :
  required <$> build_params fargs methods =
  replicate (length (defaults fargs) `min` length (args fargs)) false
  ++ replicate (length (args fargs) - length (defaults fargs)) true.
Proof.
  unfold build_params, padded_defaults. rewrite <- list_fmap_compose.
  generalize (defaults fargs) as ds.
  induction (args fargs) as [|a rest IH]; intros ds; simpl.
  - by rewrite Nat.min_0_r.
  - destruct ds as [|d ds]; simpl.
    + f_equal. specialize (IH []). simpl in IH. by rewrite Nat.sub_0_r in IH.
    + f_equal. apply IH.
Qed.

(** C1, on the code.  The flags follow the position and not the default:
    the first parameters, as many as there are defaults, are marked
    [required: false] and the others [required: true].  For
    [create_order(customer_id, note=None)] with [methods=["POST"]] the
    document has the operation [post] at the path of the function; its
    request body has both names among the properties, and its [required]
    list is [["note"]]. *)
Theorem create_order_required :
  (∀ fargs methods,
     required <$> build_params fargs methods =
     replicate (length (defaults fargs) `min` length (args fargs)) false
     ++ replicate (length (args fargs) - length (defaults fargs)) true)
  ∧ ∃ d op body media,
      custom_openapi (env := table_environment "app" [("orders.py", Ok [create_order])])
        "app" "Shop" = Ok d
      ∧ lookup_operation d "/api/methods/shop.api.orders.create_order" (CStr "post") = Some op
      ∧ requestBody op = Some body
      ∧ content body !! "application/json" = Some media
      ∧ properties (media_schema media) !! "customer_id" = Some string_schema
      ∧ properties (media_schema media) !! "note" = Some string_schema
      ∧ required_names (media_schema media) = ["note"].
Proof.
  split; [apply build_params_required|].
  eexists _, _, _, _.
  split; [vm_compute; reflexivity|].
  split; [vm_compute; reflexivity|].
  split; [reflexivity|].
  split; [vm_compute; reflexivity|].
  repeat split; vm_compute; reflexivity.
Qed.

(** ** The scan of a module *)

Section ModuleScan.
Context `{env : Environment}.

Lemma extract_routes_from_file_parse file_path file_name app_name :
  (∀ e, parse_file file_path = Raise e →
        extract_routes_from_file file_path file_name app_name = Raise e)
  ∧ (∀ tree, parse_file file_path = Ok tree →
        extract_routes_from_file file_path file_name app_name
        = scan_tree tree file_name app_name).
Proof. unfold extract_routes_from_file. split; by intros ? ->. Qed.
End ModuleScan.

(** The scan of a module, file by file.  It runs the extraction on
    the [.py] files in the order of the walk and stops at the first file on
    which it raises, be it in parsing or in reading a decorator: the scan
    then raises that exception and returns no routes.  So a file that does
    not parse makes the whole scan raise; and when the extraction succeeds
    on every file, the scan returns the concatenation of their routes. *)
Theorem module_scan_all_or_nothing `{env : Environment} module_path app_name :
  let files := py_files (os_walk module_path) in
  let extract := λ f : string * string, extract_routes_from_file f.1 f.2 app_name in
  (∀ before f after e,
     files = before ++ f :: after →
     (∀ g, g ∈ before → ∃ rs, extract g = Ok rs) →
     extract f = Raise e →
     extract_routes_from_module module_path app_name = Raise e)
  ∧ (∀ f e, f ∈ files → parse_file f.1 = Raise e →
       ∃ e', extract_routes_from_module module_path app_name = Raise e')
  ∧ (∀ rss, Forall2 (λ f rs, extract f = Ok rs) files rss →
       extract_routes_from_module module_path app_name = Ok (concat rss))
  ∧ (∀ f tree, parse_file f.1 = Ok tree → extract f = scan_tree tree f.2 app_name)
  ∧ ((∀ f, f ∈ files →
        ∃ tree, parse_file f.1 = Ok tree ∧ forallb readable_node (walk tree) = true) →
     ∃ rss, Forall2 (λ f rs, extract f = Ok rs) files rss
            ∧ extract_routes_from_module module_path app_name = Ok (concat rss)).
Proof.
  intros files extract. rewrite extract_routes_from_module_spec. fold files.
  change (λ f : string * string, extract_routes_from_file f.1 f.2 app_name) with extract.
  split; [|split; [|split; [|split]]].
  - intros before f after e Hfiles Hbefore Hf.
    destruct (mapM_result_total extract before Hbefore) as [rss Hrss].
    assert (mapM extract files = Raise e) as ->; [|done].
    apply mapM_result_Raise. eauto 10.
  - intros f e Hf Hparse.
    destruct (mapM extract files) as [rss|e'] eqn:Hrss; [|by exists e'].
    apply mapM_result_Ok in Hrss. apply list_elem_of_lookup in Hf as [i Hi].
    destruct (Forall2_lookup_l _ _ _ _ _ Hrss Hi) as (rs & _ & Hrs).
    unfold extract in Hrs.
    rewrite (proj1 (extract_routes_from_file_parse _ _ _) e Hparse) in Hrs. done.
  - intros rss Hrss%mapM_result_Ok. by rewrite Hrss.
  - intros f tree Hparse. by apply extract_routes_from_file_parse.
  - intros Hall. destruct (mapM_result_total extract files) as [rss Hrss].
    { intros f (tree & Hparse & Hreadable)%Hall. unfold extract.
      rewrite (proj2 (extract_routes_from_file_parse _ _ _) tree Hparse).
      by apply scan_tree_total. }
    exists rss. rewrite Hrss. split; [by apply mapM_result_Ok|done].
Qed.

Lemma module_scan_all_or_nothing_witness :
  extract_routes_from_module (env := broken_tree) "app" "Shop" = Raise SyntaxError
  ∧ extract_routes_from_module (env := shop_tree) "app" "Shop"
    = Ok (concat [[create_order_route]; [search_route]]).
Proof.
  split.
  - apply (proj1 (module_scan_all_or_nothing (env := broken_tree) "app" "Shop")
             [("app/orders.py", "orders")] ("app/broken.py", "broken")
             [("app/catalog.py", "catalog")] SyntaxError).
    + vm_compute. reflexivity.
    + intros g ->%list_elem_of_singleton. exists [create_order_route].
      vm_compute. reflexivity.
    + vm_compute. reflexivity.
  - apply (proj1 (proj2 (proj2 (module_scan_all_or_nothing (env := shop_tree) "app" "Shop")))).
    change (py_files (os_walk "app"))
      with [("app/orders.py", "orders"); ("app/catalog.py", "catalog")].
    repeat constructor; vm_compute; reflexivity.
Defined.

(** C4, on the code.  The one file of [unreadable_tree] parses, and yet
    the scan of the module returns no routes: it raises [AttributeError]
    for the decorator [methods=[GET]] of its function.  A file that does
    not parse makes the scan raise as well, as in [broken_tree], where the
    files before and after it parse. *)
Theorem module_scan_raises_on_parsed_file :
  (∀ f, f ∈ py_files (os_walk (Environment := unreadable_tree) "app") →
        ∃ tree, parse_file (Environment := unreadable_tree) f.1 = Ok tree)
  ∧ extract_routes_from_module (env := unreadable_tree) "app" "Shop"
    = Raise AttributeError
  ∧ extract_routes_from_module (env := broken_tree) "app" "Shop" = Raise SyntaxError.
Proof.
  split; [|split; vm_compute; reflexivity].
  change (py_files (os_walk (Environment := unreadable_tree) "app"))
    with [("app/orders.py", "orders")].
  intros f ->%list_elem_of_singleton. eexists. vm_compute. reflexivity.
Qed.

(** ** The request body *)

Lemma properties_fold_frame (params : list param) (acc : gmap string schema) (n : string) :
  n ∉ param_name <$> params →
  foldl (λ props p, <[param_name p := param_schema p]> props) acc params !! n = acc !! n.
Proof.
  revert acc. induction params as [|p rest IH]; intros acc Hn; [done|].
  simpl. rewrite fmap_cons, not_elem_of_cons in Hn. destruct Hn as [Hp Hrest].
  rewrite IH by done. by rewrite lookup_insert_ne.
Qed.

Lemma properties_fold_present (params : list param) (acc : gmap string schema) (p : param) :
  p ∈ params →
  ∃ q, q ∈ params ∧ param_name q = param_name p
       ∧ foldl (λ props p, <[param_name p := param_schema p]> props) acc params
           !! param_name p = Some (param_schema q).
Proof.
  revert acc p. induction params as [|p0 rest IH]; intros acc p Hp; [by inversion Hp|].
  simpl. destruct (decide (param_name p ∈ param_name <$> rest)) as [Hin|Hout].
  - apply list_elem_of_fmap in Hin as (q & Hname & Hq).
    destruct (IH (<[param_name p0 := param_schema p0]> acc) q Hq)
      as (q' & Hq' & Hname' & Hlook).
    exists q'. split; [by apply list_elem_of_further|]. split; [congruence|].
    rewrite Hname. done.
  - apply elem_of_cons in Hp as [->|Hp].
    + exists p0. split; [apply list_elem_of_here|]. split; [done|].
      rewrite properties_fold_frame by done. apply lookup_insert_eq.
    + destruct Hout. by apply list_elem_of_fmap_2.
Qed.

Lemma properties_fold_origin (params : list param) (acc : gmap string schema) n s :
  foldl (λ props p, <[param_name p := param_schema p]> props) acc params !! n = Some s →
  acc !! n = Some s ∨ ∃ p, p ∈ params ∧ param_name p = n ∧ param_schema p = s.
Proof.
  revert acc. induction params as [|p0 rest IH]; intros acc Hs; [by left|].
  simpl in Hs. apply IH in Hs as [Hs|(p & Hp & Hname & Hschema)].
  - destruct (decide (param_name p0 = n)) as [<-|Hne].
    + rewrite lookup_insert_eq in Hs. injection Hs as <-.
      right. exists p0. split; [apply list_elem_of_here|done].
    + rewrite lookup_insert_ne in Hs by done. by left.
  - right. exists p. split; [by apply list_elem_of_further|done].
Qed.

Lemma required_of_elem (params : list param) (n : string) :
  n ∈ required_of params ↔ ∃ p, p ∈ params ∧ param_name p = n ∧ required p = true.
Proof.
  unfold required_of. rewrite list_elem_of_fmap. split.
  - intros (p & -> & [Hreq Hp]%list_elem_of_filter).
    exists p. split; [done|]. split; [done|]. by apply Is_true_eq_true.
  - intros (p & Hp & <- & Hreq). exists p. split; [done|].
    apply list_elem_of_filter. split; [|done]. by apply Is_true_eq_left.
Qed.

Lemma is_post_or_put_true (m : constant) :
  is_post_or_put m = true ↔ m = CStr "POST" ∨ m = CStr "PUT".
Proof.
  unfold is_post_or_put. rewrite bool_decide_eq_true.
  rewrite !elem_of_cons, elem_of_nil. tauto.
Qed.

(** ** The paths of the document *)

Lemma stored_after_write schema_paths p0 key0 op p key :
  stored (alter (insert key0 op) p0
            (if bool_decide (schema_paths !! p0 = None)
             then <[p0 := ∅]> schema_paths else schema_paths)) p key
  = if decide (p = p0 ∧ key = key0) then Some op else stored schema_paths p key.
Proof.
  unfold stored. rewrite lookup_alter. case_bool_decide as Hnew.
  - destruct (decide (p0 = p)) as [<-|Hp].
    + rewrite lookup_insert_eq, Hnew. simpl.
      destruct (decide (key = key0)) as [->|Hkey].
      * rewrite decide_True by done. apply lookup_insert_eq.
      * rewrite decide_False by tauto. rewrite lookup_insert_ne by done. done.
    + rewrite lookup_insert_ne by done. rewrite decide_False; [done|].
      intros [-> _]. done.
  - destruct (decide (p0 = p)) as [<-|Hp].
    + destruct (schema_paths !! p0) as [inner|]; [|done]. simpl.
      destruct (decide (key = key0)) as [->|Hkey].
      * rewrite decide_True by done. apply lookup_insert_eq.
      * rewrite decide_False by tauto. by rewrite lookup_insert_ne.
    + rewrite decide_False; [done|]. intros [-> _]. done.
Qed.

Section SynthesizerFacts.
Context `{env : Environment}.

Lemma add_operations_frame r methods schema_paths schema_paths' p key :
  add_operations r methods schema_paths = Ok schema_paths' →
  (p, Ok key) ∉ (λ m, (path r, str_lower m)) <$> methods →
  stored schema_paths' p key = stored schema_paths p key.
Proof.
  revert schema_paths. induction methods as [|m rest IH]; intros schema_paths.
  - by intros [= <-].
  - simpl. intros (key0 & Hkey0 & Hrest)%bind_Ok Hout.
    rewrite not_elem_of_cons in Hout. destruct Hout as [Hhead Hout].
    rewrite (IH _ Hrest Hout), stored_after_write.
    rewrite decide_False; [done|]. intros [-> ->]. by rewrite Hkey0 in Hhead.
Qed.

Lemma add_operations_stored r methods schema_paths schema_paths' m :
  add_operations r methods schema_paths = Ok schema_paths' →
  NoDup ((λ m, (path r, str_lower m)) <$> methods) → m ∈ methods →
  ∃ key, str_lower m = Ok key
         ∧ stored schema_paths' (path r) key = Some (operation_of r m).
Proof.
  revert schema_paths. induction methods as [|m0 rest IH]; intros schema_paths.
  - intros _ _ Hm. by inversion Hm.
  - simpl. intros (key0 & Hkey0 & Hrest)%bind_Ok Hnodup Hm.
    apply NoDup_cons in Hnodup as [Hfresh Hnodup].
    apply elem_of_cons in Hm as [->|Hm]; [|by eapply IH].
    exists key0. split; [done|].
    rewrite (add_operations_frame _ _ _ _ _ _ Hrest) by (by rewrite <- Hkey0).
    rewrite stored_after_write. by rewrite decide_True.
Qed.

Lemma operation_keys_cons (r : route) (routes : list route) :
  operation_keys (r :: routes)
  = ((λ m, (path r, str_lower m)) <$> method r) ++ operation_keys routes.
Proof.
  unfold operation_keys. cbn. f_equal.
Qed.

Lemma add_routes_frame routes state state' p key :
  add_routes routes state = Ok state' →
  (p, Ok key) ∉ operation_keys routes →
  stored state'.2 p key = stored state.2 p key.
Proof.
  revert state. induction routes as [|r rest IH]; intros state.
  - by intros [= <-].
  - cbn [add_routes]. intros (schema_paths & Hops & Hrest)%bind_Ok Hout.
    rewrite operation_keys_cons, not_elem_of_app in Hout. destruct Hout as [Hhead Hout].
    rewrite (IH _ Hrest Hout). simpl. by eapply add_operations_frame.
Qed.

Lemma add_routes_stored routes state state' r m :
  add_routes routes state = Ok state' →
  NoDup (operation_keys routes) → r ∈ routes → m ∈ method r →
  ∃ key, str_lower m = Ok key ∧ stored state'.2 (path r) key = Some (operation_of r m).
Proof.
  revert state. induction routes as [|r0 rest IH]; intros state.
  - intros _ _ Hr. by inversion Hr.
  - cbn [add_routes]. intros (schema_paths & Hops & Hrest)%bind_Ok Hnodup Hr Hm.
    rewrite operation_keys_cons in Hnodup.
    apply NoDup_app in Hnodup as (Hhead & Hdisjoint & Htail).
    apply elem_of_cons in Hr as [->|Hr]; [|by eapply IH].
    destruct (add_operations_stored _ _ _ _ _ Hops Hhead Hm) as (key & Hkey & Hstored).
    exists key. split; [done|].
    rewrite (add_routes_frame _ _ _ (path r0) key Hrest); [exact Hstored|].
    apply Hdisjoint. rewrite <- Hkey. by apply (list_elem_of_fmap_2 (λ m, (path r0, str_lower m))).
Qed.

Lemma add_operations_str r methods schema_paths schema_paths' m :
  add_operations r methods schema_paths = Ok schema_paths' → m ∈ methods →
  ∃ key, str_lower m = Ok key.
Proof.
  revert schema_paths. induction methods as [|m0 rest IH]; intros schema_paths.
  - intros _ Hm. by inversion Hm.
  - simpl. intros (key0 & Hkey0 & Hrest)%bind_Ok [->|Hm]%elem_of_cons; eauto.
Qed.

Lemma add_routes_str routes state state' r m :
  add_routes routes state = Ok state' → r ∈ routes → m ∈ method r →
  ∃ key, str_lower m = Ok key.
Proof.
  revert state. induction routes as [|r0 rest IH]; intros state.
  - intros _ Hr. by inversion Hr.
  - simpl. intros (schema_paths & Hops & Hrest)%bind_Ok [->|Hr]%elem_of_cons Hm.
    + by eapply add_operations_str.
    + by eapply IH.
Qed.

Lemma add_routes_tags routes state state' :
  add_routes routes state = Ok state' →
  state'.1 = list_to_set (tag <$> routes) ∪ state.1.
Proof.
  revert state. induction routes as [|r rest IH]; intros state.
  - intros [= <-]. simpl. by rewrite (left_id_L ∅ (∪)).
  - simpl. intros (schema_paths & Hops & Hrest)%bind_Ok.
    rewrite (IH _ Hrest). simpl.
    by rewrite (assoc_L (∪)), (comm_L (∪) (list_to_set _) {[tag r]}).
Qed.

(** The document is built whenever every method of every route is a
    [str] or a [bytes]. *)
Lemma generate_openapi_spec_total routes app_name :
  Forall (λ r, Forall (λ m, (∃ s, m = CStr s) ∨ (∃ b, m = CBytes b)) (method r)) routes ↔
  ∃ d, generate_openapi_spec routes app_name = Ok d.
Proof.
  unfold generate_openapi_spec. split.
  - intros Hstr. generalize (∅ : gset string, ∅ : gmap string (gmap constant operation)).
    induction Hstr as [|r rest Hr _ IH]; intros state; [cbn; eauto|].
    assert (∀ schema_paths, ∃ schema_paths',
              add_operations r (method r) schema_paths = Ok schema_paths') as Hops.
    { clear IH. induction Hr as [|m ms [[s ->]|[b ->]] _ IHm]; intros schema_paths;
        [cbn; eauto|cbn; apply IHm..]. }
    destruct (Hops state.2) as [schema_paths' Hops'].
    destruct (IH ({[tag r]} ∪ state.1, schema_paths')) as [d Hd].
    exists d. simpl. rewrite Hops'. exact Hd.
  - intros [d (state & Hstate & _)%bind_Ok].
    apply Forall_forall. intros r Hr. apply Forall_forall. intros m Hm.
    destruct (add_routes_str _ _ _ _ _ Hstate Hr Hm) as [key Hkey].
    destruct m; try done; eauto.
Qed.

End SynthesizerFacts.

Example generate_create_order :
  generate_openapi_spec (env := no_files) [create_order_route] "Shop"
  = Ok create_order_document.
Proof. vm_compute. reflexivity. Qed.

Example generate_users :
  generate_openapi_spec (env := no_files) [list_users_route; ban_user_route] "MyApp"
  = Ok users_document.
Proof. vm_compute. reflexivity. Qed.

Example generate_bytes_method :
  ∃ d, generate_openapi_spec (env := no_files)
         [{| function_name := "f"; path := "/p"; method := [CBytes "GET"];
             params := []; doc := ""; responses := ∅; tag := "t" |}] "Shop" = Ok d
       ∧ dom <$> paths d !! "/p" = Some {[CBytes "get"]}.
Proof. eexists. split; [vm_compute; reflexivity|]. vm_compute. reflexivity. Qed.

(** C5.  For a route [r] of the input and a method [m] of its list, the
    operation that the generator stores under the path of [r] and the
    lower-cased [m] has a request body if and only if [m] is [POST] or
    [PUT], and [None] otherwise; the schema of the body is of the type
    [object], its properties have an entry for the name of every parameter,
    with the schema of a parameter of that name, and no other entry, and its
    [required] list holds exactly the names of the parameters marked
    required, in their order.  Where no two pairs of a route and a method
    share their path and lower-cased method, the document holds that
    operation there. *)
Theorem request_body_for_post_and_put `{env : Environment} routes app_name d r m :
  generate_openapi_spec routes app_name = Ok d → r ∈ routes → m ∈ method r →
  ∃ key, str_lower m = Ok key
    ∧ (NoDup (operation_keys routes) →
       lookup_operation d (path r) key = Some (operation_of r m))
    ∧ (is_Some (requestBody (operation_of r m)) ↔ m = CStr "POST" ∨ m = CStr "PUT")
    ∧ (m ≠ CStr "POST" → m ≠ CStr "PUT" → requestBody (operation_of r m) = None)
    ∧ ∀ body, requestBody (operation_of r m) = Some body →
        ∃ media, content body = {[ "application/json" := media ]}
          ∧ object_type (media_schema media) = "object"
          ∧ (∀ p, p ∈ params r →
               ∃ q, q ∈ params r ∧ param_name q = param_name p
                    ∧ properties (media_schema media) !! param_name p
                      = Some (param_schema q))
          ∧ (∀ n s, properties (media_schema media) !! n = Some s →
               ∃ p, p ∈ params r ∧ param_name p = n ∧ param_schema p = s)
          ∧ (∀ n, n ∈ required_names (media_schema media) ↔
               ∃ p, p ∈ params r ∧ param_name p = n ∧ required p = true)
          ∧ required_names (media_schema media)
            = param_name <$> filter (λ p, required p) (params r).
Proof.
  unfold generate_openapi_spec.
  intros (state & Hstate & [= <-])%bind_Ok Hr Hm.
  destruct (add_routes_str _ _ _ _ _ Hstate Hr Hm) as [key Hkey].
  exists key. split; [done|]. split.
  { intros Hnodup.
    destruct (add_routes_stored _ _ _ _ _ Hstate Hnodup Hr Hm) as (key' & Hkey' & Hstored).
    rewrite Hkey in Hkey'. by injection Hkey' as <-. }
  unfold operation_of at 1 2 3. simpl.
  destruct (is_post_or_put m) eqn:Hbody.
  - apply is_post_or_put_true in Hbody. split; [split; eauto|].
    split; [intros ? ?; tauto|].
    intros body [= <-]. eexists. split; [reflexivity|]. simpl.
    split; [done|]. split; [intros p Hp; by apply properties_fold_present|].
    split; [|split; [apply required_of_elem|done]].
    intros n s [Hempty|Hfrom]%properties_fold_origin; [|done].
    by rewrite lookup_empty in Hempty.
  - assert (¬ (m = CStr "POST" ∨ m = CStr "PUT")) as Hnot.
    { rewrite <- is_post_or_put_true. by rewrite Hbody. }
    split; [split; [by intros [? ?]|tauto]|]. split; [done|]. by intros body.
Qed.

Lemma request_body_for_post_and_put_witness :
  lookup_operation create_order_document (path create_order_route) (CStr "post")
    = Some (operation_of create_order_route (CStr "POST"))
  ∧ is_Some (requestBody (operation_of create_order_route (CStr "POST")))
  ∧ requestBody (operation_of list_users_route (CStr "GET")) = None.
Proof.
  destruct (request_body_for_post_and_put (env := no_files) [create_order_route] "Shop"
              create_order_document create_order_route (CStr "POST"))
    as (key & Hkey & Hstored & Hsome & _);
    [vm_compute; reflexivity | apply list_elem_of_here | apply list_elem_of_here |].
  injection Hkey as <-.
  destruct (request_body_for_post_and_put (env := no_files)
              [list_users_route; ban_user_route] "MyApp"
              users_document list_users_route (CStr "GET"))
    as (_ & _ & _ & _ & Hnone & _);
    [vm_compute; reflexivity | apply list_elem_of_here | apply list_elem_of_here |].
  split; [|split].
  - apply Hstored. apply NoDup_singleton.
  - apply Hsome. by left.
  - by apply Hnone.
Defined.

(** ** The tags of the document *)

Lemma tag_entries_absent (names : list string) (t : string) :
  t ∉ names → filter (λ e, tag_name e = t) (Tag <$> names) = [].
Proof.
  induction names as [|n rest IH]; [done|].
  intros [Hne Hrest]%not_elem_of_cons. rewrite fmap_cons, filter_cons. simpl.
  rewrite decide_False by done. by apply IH.
Qed.

Lemma tag_entries_once (names : list string) (t : string) :
  NoDup names → t ∈ names →
  length (filter (λ e, tag_name e = t) (Tag <$> names)) = 1.
Proof.
  induction 1 as [|n rest Hfresh Hnodup IH]; intros Ht; [by inversion Ht|].
  rewrite fmap_cons, filter_cons. simpl. destruct (decide (n = t)) as [->|Hne].
  - by rewrite tag_entries_absent.
  - apply IH. apply elem_of_cons in Ht as [->|Ht]; done.
Qed.

(** C8.  The tags of a generated document are the tags of its routes and
    no others, each of them in one entry only, however many routes and
    files share it. *)
Theorem tags_deduplicated `{env : Environment} routes app_name d :
  generate_openapi_spec routes app_name = Ok d →
  NoDup (tag_name <$> tags d)
  ∧ (∀ t, t ∈ tag_name <$> tags d ↔ ∃ r, r ∈ routes ∧ tag r = t)
  ∧ (∀ r, r ∈ routes → length (filter (λ e, tag_name e = tag r) (tags d)) = 1)
  ∧ (∀ r1 r2, r1 ∈ routes → r2 ∈ routes → tag r1 = tag r2 →
       ∃ before after, tags d = before ++ Tag (tag r1) :: after
         ∧ Tag (tag r2) ∉ before ++ after).
Proof.
  unfold generate_openapi_spec. intros (state & Hstate & [= <-])%bind_Ok. simpl.
  apply add_routes_tags in Hstate. simpl in Hstate.
  rewrite (right_id_L ∅ (∪)) in Hstate.
  assert (tag_name <$> (Tag <$> elements state.1) = elements state.1) as Hnames.
  { rewrite <- list_fmap_compose. apply list_fmap_id. }
  assert (∀ t, t ∈ elements state.1 ↔ ∃ r, r ∈ routes ∧ tag r = t) as Helem.
  { intros t. rewrite elem_of_elements, Hstate, elem_of_list_to_set, list_elem_of_fmap.
    split; intros (r & ? & ?); eauto. }
  rewrite Hnames. split; [apply NoDup_elements|]. split; [done|]. split.
  - intros r Hr. apply tag_entries_once; [apply NoDup_elements|]. apply Helem. eauto.
  - intros r1 r2 Hr1 Hr2 Htag.
    assert (tag r1 ∈ elements state.1) as Hin by (apply Helem; eauto).
    apply list_elem_of_split in Hin as (before & after & Hsplit).
    exists (Tag <$> before), (Tag <$> after). rewrite Hsplit, fmap_app, fmap_cons.
    split; [done|]. rewrite <- fmap_app, <- Htag.
    intros (n & [= <-] & Hn)%list_elem_of_fmap.
    pose proof (NoDup_elements state.1) as Hnodup. rewrite Hsplit in Hnodup.
    apply NoDup_app in Hnodup as (_ & Hdisjoint & [Hfresh _]%NoDup_cons).
    apply elem_of_app in Hn as [Hn|Hn]; [|done].
    apply (Hdisjoint _ Hn). apply list_elem_of_here.
Qed.

Lemma tags_deduplicated_witness :
  length (filter (λ e, tag_name e = "users") (tags users_document)) = 1.
Proof.
  apply (proj1 (proj2 (proj2 (tags_deduplicated (env := no_files)
                                [list_users_route; ban_user_route]
                                "MyApp" users_document eq_refl))) ban_user_route).
  apply list_elem_of_further, list_elem_of_here.
Defined.

(** * Further properties of the scan *)

(** ** The walk and the tree *)

Lemma nodes_of_app (l1 l2 : list stmt) : nodes_of (l1 ++ l2) = nodes_of l1 ++ nodes_of l2.
Proof. unfold nodes_of. by rewrite List.map_app, concat_app. Qed.

Lemma subtree_children (node : stmt) :
  subtree node = node :: nodes_of (child_stmts node).
Proof. destruct node; simpl; try done; by rewrite nodes_of_app. Qed.

Lemma nodes_of_cons (node : stmt) (rest : list stmt) :
  nodes_of (node :: rest) = node :: nodes_of (child_stmts node) ++ nodes_of rest.
Proof. unfold nodes_of at 1. simpl. by rewrite subtree_children. Qed.

Lemma walk_queue_nodes (todo : list stmt) : walk_queue todo ≡ₚ nodes_of todo.
Proof.
  funelim (walk_queue todo); [done|].
  rewrite nodes_of_cons. constructor.
  rewrite H, nodes_of_app. apply Permutation_app_comm.
Qed.

(** The walk yields the queue, then walks the children of its nodes. *)
Lemma walk_queue_level (level todo : list stmt) :
  walk_queue (level ++ todo)
  = level ++ walk_queue (todo ++ (level ≫= child_stmts)).
Proof.
  revert todo. induction level as [|node level IH]; intros todo.
  - simpl. by rewrite app_nil_r.
  - rewrite <- app_comm_cons. simp walk_queue.
    rewrite <- app_assoc, IH. simpl. by rewrite <- app_assoc.
Qed.

Section ScanFacts.
Context `{env : Environment}.

(** Every [whitelist] call on a [def] of the walk has its route in a scan
    that succeeds. *)
Lemma scan_tree_complete tree file_name app_name routes name fargs body decorator_list d :
  scan_tree tree file_name app_name = Ok routes →
  FunctionDef name fargs body decorator_list ∈ walk tree →
  d ∈ decorator_list → is_whitelist_call d = true →
  ∃ r, r ∈ routes ∧ build_route name fargs body d file_name app_name = Ok r.
Proof.
  rewrite scan_tree_spec.
  intros (rss & Hrss%mapM_result_Ok & [= <-])%bind_Ok Hnode Hd Hcall.
  apply list_elem_of_lookup in Hnode as [i Hi].
  destruct (Forall2_lookup_l _ _ _ _ _ Hrss Hi) as (rs & Hrs & Hroutes).
  simpl in Hroutes. unfold function_routes in Hroutes.
  apply mapM_result_Ok in Hroutes.
  assert (d ∈ filter (λ d, is_whitelist_call d) decorator_list) as Hin.
  { apply list_elem_of_filter. split; [by apply Is_true_eq_left|done]. }
  apply list_elem_of_lookup in Hin as [j Hj].
  destruct (Forall2_lookup_l _ _ _ _ _ Hroutes Hj) as (r & Hr & Hbuild).
  exists r. split; [|done]. apply elem_of_concat. exists rs.
  split; by eapply list_elem_of_lookup_2.
Qed.

Lemma scan_decorators_no_call name fargs body decorators file_name app_name routes :
  existsb is_whitelist_call decorators = false →
  scan_decorators name fargs body decorators file_name app_name routes = Ok routes.
Proof.
  induction decorators as [|d rest IH]; [done|]. simpl.
  intros [-> Hrest]%orb_false_iff. by apply IH.
Qed.

Lemma scan_nodes_no_match nodes file_name app_name routes :
  Forall (λ node, is_matching node = false) nodes →
  scan_nodes nodes file_name app_name routes = Ok routes.
Proof.
  induction 1 as [|node rest Hnode _ IH]; [done|].
  destruct node; simpl; try apply IH.
  simpl in Hnode. rewrite scan_decorators_no_call by done. apply IH.
Qed.

Lemma whitelist_calls_zero (node : stmt) :
  whitelist_calls node = 0 → is_matching node = false.
Proof.
  destruct node; simpl; try done. induction decorator_list as [|d rest IH]; [done|].
  rewrite filter_cons. simpl. destruct (is_whitelist_call d); simpl; [done|apply IH].
Qed.

(** What makes the extraction of one decorator raise. *)
Lemma extract_methods_Raise (decorator : expr) (e : exn) :
  extract_methods decorator = Raise e →
  e = AttributeError
  ∧ ∃ elts, find_methods_arg (call_keywords decorator) = Some (List elts)
            ∧ Exists (λ elt, is_constant elt = false) elts.
Proof.
  unfold extract_methods, methods_of_arg.
  destruct (find_methods_arg _) as [[]|]; try done.
  intros (l1 & x & l2 & k1 & -> & _ & Hx)%mapM_result_Raise.
  destruct x; try done; injection Hx as <-;
    (split; [done|]); eexists; (split; [done|]);
    apply Exists_app; right; by left.
Qed.
End ScanFacts.

(** X1.  The scan reaches the functions nested at any depth: the walk is a
    rearrangement of all statements of the tree, each of them once, and a
    scan that succeeds holds a route for every [whitelist] call on every
    [def] of the tree. *)
Theorem nested_functions_are_scanned `{env : Environment} tree file_name app_name :
  walk tree ≡ₚ nodes_of tree
  ∧ ∀ routes name fargs body decorator_list d,
      scan_tree tree file_name app_name = Ok routes →
      FunctionDef name fargs body decorator_list ∈ nodes_of tree →
      d ∈ decorator_list → is_whitelist_call d = true →
      ∃ r, r ∈ routes ∧ build_route name fargs body d file_name app_name = Ok r.
Proof.
  split; [apply walk_queue_nodes|].
  intros routes name fargs body ds d Hscan Hnode Hd Hcall.
  eapply scan_tree_complete; [done| |done|done].
  unfold walk. by rewrite walk_queue_nodes.
Qed.

Lemma nested_functions_are_scanned_witness :
  ∃ r, r ∈ [ {| function_name := "ping"; path := "/api/methods/shop.api.tools.ping";
                method := [CStr "POST"]; params := []; doc := ""; responses := ∅;
                tag := "tools" |};
             {| function_name := "ping"; path := "/api/methods/shop.api.tools.ping";
                method := [CStr "GET"]; params := []; doc := ""; responses := ∅;
                tag := "tools" |} ]
       ∧ build_route (env := no_files) "ping" no_arguments [Pass]
           (whitelist_with (List [Constant (CStr "GET")])) "tools" "Shop" = Ok r.
Proof.
  apply (proj2 (nested_functions_are_scanned (env := no_files) nested_tree "tools" "Shop")
           _ "ping" no_arguments [Pass]
           [whitelist_plain; whitelist_with (List [Constant (CStr "GET")])]).
  - vm_compute. reflexivity.
  - vm_compute. do 3 apply list_elem_of_further. apply list_elem_of_here.
  - apply list_elem_of_further, list_elem_of_here.
  - reflexivity.
Defined.

(** X2.  The routes come level by level: those of the statements of the
    tree itself, in order, and then those of the scan of their children;
    the routes of outer functions precede those of the functions nested in
    them or in their neighbours. *)
Theorem scan_tree_levels `{env : Environment} tree file_name app_name :
  scan_tree tree file_name app_name =
  rss ← mapM (node_routes file_name app_name) tree;
  inner ← scan_tree (tree ≫= child_stmts) file_name app_name;
  mret (concat rss ++ inner).
Proof.
  rewrite !scan_tree_spec. unfold walk.
  rewrite <- (app_nil_r tree) at 1. rewrite walk_queue_level. simpl.
  rewrite mapM_result_app.
  destruct (mapM _ tree) as [rss|e]; [|done]. cbn.
  destruct (mapM _ (walk_queue _)) as [rss'|e]; [|done]. cbn.
  by rewrite concat_app.
Qed.

(** What [is_whitelist_call] accepts: a call whose callee is an attribute
    named [whitelist]. *)
Lemma is_whitelist_call_spec (d : expr) :
  is_whitelist_call d = true
  ↔ ∃ obj call_args keywords, d = Call (Attribute obj "whitelist") call_args keywords.
Proof.
  split.
  - destruct d; try done. destruct d; try done. simpl.
    intros ->%bool_decide_eq_true. eauto.
  - by intros (obj & call_args & keywords & ->).
Qed.

(** X3.  A scan gives the empty list exactly when no [def] of the walk has
    among its decorators a call whose callee is an attribute named
    [whitelist]; such a tree never makes the scan raise.  So the scan of a
    tree gives no route when every decorator of its [def]s is a name, an
    attribute that is not called (as [@frappe.whitelist]), or the call of a
    plain name (as [@whitelist()]). *)
Theorem no_matching_function_no_route `{env : Environment} tree file_name app_name :
  (scan_tree tree file_name app_name = Ok []
   ↔ ∀ name fargs body decorator_list obj call_args keywords,
       FunctionDef name fargs body decorator_list ∈ walk tree →
       Call (Attribute obj "whitelist") call_args keywords ∉ decorator_list)
  ∧ ((∀ name fargs body decorator_list d,
        FunctionDef name fargs body decorator_list ∈ walk tree → d ∈ decorator_list →
        (∃ id, d = Name id) ∨ (∃ obj attr, d = Attribute obj attr)
        ∨ (∃ id call_args keywords, d = Call (Name id) call_args keywords)) →
     scan_tree tree file_name app_name = Ok []).
Proof.
  assert (Forall (λ node, is_matching node = false) (walk tree)
          ↔ ∀ name fargs body decorator_list obj call_args keywords,
              FunctionDef name fargs body decorator_list ∈ walk tree →
              Call (Attribute obj "whitelist") call_args keywords ∉ decorator_list)
    as Hsyntax.
  { rewrite Forall_forall. split.
    - intros Hnone name fargs body ds obj call_args keywords Hnode Hd.
      specialize (Hnone _ Hnode). simpl in Hnone.
      apply not_true_iff_false in Hnone. apply Hnone, existsb_exists.
      eexists. split; [by apply list_elem_of_In|done].
    - intros Hnone node Hnode. destruct node; try done. simpl.
      apply not_true_iff_false.
      intros (d & Hd%list_elem_of_In & (obj & ca & kw & ->)%is_whitelist_call_spec)%existsb_exists.
      by eapply Hnone. }
  assert (scan_tree tree file_name app_name = Ok []
          ↔ Forall (λ node, is_matching node = false) (walk tree)) as Hscan.
  { split.
    - rewrite scan_tree_spec.
      intros (rss & Hrss%mapM_result_Ok & [= Hnil])%bind_Ok.
      apply Forall_forall. intros node Hnode.
      apply list_elem_of_lookup in Hnode as [i Hi].
      destruct (Forall2_lookup_l _ _ _ _ _ Hrss Hi) as (rs & Hrs & Hroutes).
      apply node_routes_length in Hroutes as [Hlen _].
      apply whitelist_calls_zero. rewrite <- Hlen.
      assert (rs = []) as ->; [|done].
      apply list_elem_of_lookup_2 in Hrs.
      destruct rs as [|r rs]; [done|].
      assert (r ∈ concat rss) as Hr.
      { apply elem_of_concat. exists (r :: rs). split; [apply list_elem_of_here|done]. }
      rewrite Hnil in Hr. by apply not_elem_of_nil in Hr.
    - intros Hnone. by apply scan_nodes_no_match. }
  split; [by rewrite Hscan, Hsyntax|].
  intros Hshape. apply Hscan, Hsyntax.
  intros name fargs body ds obj call_args keywords Hnode Hd.
  destruct (Hshape _ _ _ _ _ Hnode Hd)
    as [[id ?]|[(obj' & attr & ?)|(id & ca & kw & ?)]]; done.
Qed.

Lemma no_matching_function_no_route_witness :
  scan_tree (env := no_files) [Pass; list_users_plain] "users" "MyApp" = Ok [].
Proof.
  apply (proj2 (no_matching_function_no_route (env := no_files) _ _ _)).
  intros name fargs body ds d Hnode Hd. vm_compute in Hnode.
  apply elem_of_cons in Hnode as [Hnode|Hnode]; [done|].
  apply elem_of_cons in Hnode as [Hnode|Hnode];
    [|apply elem_of_cons in Hnode as [Hnode|Hnode]; [done|by apply elem_of_nil in Hnode]].
  injection Hnode as -> -> -> ->.
  apply elem_of_cons in Hd as [->|Hd]; [right; left; eauto|].
  apply list_elem_of_singleton in Hd as ->. right. right. eauto.
Defined.

(** X4.  The scan of a parsed tree raises nothing but [AttributeError], and
    it raises it exactly when some [whitelist] call on a [def] of the walk
    has a [methods] list with an element that is no constant; the first line
    of a docstring is always found. *)
Theorem scan_raises_attribute_error_only `{env : Environment} tree file_name app_name :
  (∀ e, scan_tree tree file_name app_name = Raise e →
     e = AttributeError
     ∧ ∃ name fargs body decorator_list d elts,
         FunctionDef name fargs body decorator_list ∈ walk tree
         ∧ d ∈ decorator_list ∧ is_whitelist_call d = true
         ∧ find_methods_arg (call_keywords d) = Some (List elts)
         ∧ Exists (λ elt, is_constant elt = false) elts)
  ∧ (scan_tree tree file_name app_name = Raise AttributeError
     ↔ forallb readable_node (walk tree) = false).
Proof.
  assert (∀ e, scan_tree tree file_name app_name = Raise e →
     e = AttributeError
     ∧ ∃ name fargs body decorator_list d elts,
         FunctionDef name fargs body decorator_list ∈ walk tree
         ∧ d ∈ decorator_list ∧ is_whitelist_call d = true
         ∧ find_methods_arg (call_keywords d) = Some (List elts)
         ∧ Exists (λ elt, is_constant elt = false) elts) as Hraise.
  { intros e. rewrite scan_tree_spec.
    intros [Hmap|(rss & _ & ?)]%bind_Raise; [|done].
    apply mapM_result_Raise in Hmap as (l1 & node & l2 & k1 & Hwalk & _ & Hnode).
    destruct node; try done. simpl in Hnode. unfold function_routes in Hnode.
    apply mapM_result_Raise in Hnode as (d1 & d & d2 & k2 & Hfilter & _ & Hbuild).
    apply build_route_Raise, extract_methods_Raise in Hbuild as (-> & elts & Hfind & Hex).
    split; [done|].
    assert (d ∈ filter (λ d, is_whitelist_call d) decorator_list) as Hd.
    { rewrite Hfilter. apply elem_of_app. right. apply list_elem_of_here. }
    apply list_elem_of_filter in Hd as [Hcall Hd].
    exists name, fargs, body, decorator_list, d, elts.
    split; [rewrite Hwalk; apply elem_of_app; right; apply list_elem_of_here|].
    split; [done|]. split; [by apply Is_true_eq_true|done]. }
  split; [done|].
  pose proof (scan_tree_total tree file_name app_name) as Htotal.
  destruct (scan_tree tree file_name app_name) as [routes|e] eqn:Hscan.
  - split; [done|]. intros Hfalse.
    rewrite (proj2 Htotal) in Hfalse by eauto. done.
  - destruct (Hraise e eq_refl) as [-> _]. split; [|done]. intros _.
    destruct (forallb readable_node (walk tree)); [|done].
    destruct (proj1 Htotal eq_refl) as [? ?]. done.
Qed.

Lemma scan_raises_attribute_error_only_witness :
  scan_tree (env := no_files)
    [FunctionDef "f" no_arguments [Pass] [whitelist_with (List [Name "GET"])]]
    "orders" "Shop" = Raise AttributeError.
Proof.
  apply (proj2 (scan_raises_attribute_error_only (env := no_files) _ _ _)).
  vm_compute. reflexivity.
Defined.

(** ** Docstrings and the fields of a route *)

Lemma string_app_nil_l (s : string) : "" +:+ s = s.
Proof. reflexivity. Qed.

Lemma string_app_cons (c : ascii) (s1 s2 : string) :
  String c s1 +:+ s2 = String c (s1 +:+ s2).
Proof. reflexivity. Qed.

Lemma string_app_nil_r (s : string) : s +:+ "" = s.
Proof.
  induction s as [|c s IH]; [done|]. by rewrite string_app_cons, IH.
Qed.

Lemma string_app_assoc (s1 s2 s3 : string) : (s1 +:+ s2) +:+ s3 = s1 +:+ (s2 +:+ s3).
Proof.
  induction s1 as [|c s1 IH]; [done|]. by rewrite !string_app_cons, IH.
Qed.

Lemma string_app_length (s1 s2 : string) :
  String.length (s1 +:+ s2) = String.length s1 + String.length s2.
Proof.
  induction s1 as [|c s1 IH]; [done|]. rewrite string_app_cons. simpl. by rewrite IH.
Qed.

(** A boundary at the head of a text is at the head of every text that
    it begins. *)
Lemma boundary_length_prefix (a b : string) :
  boundary_length (a +:+ b) = 0 → boundary_length a = 0.
Proof.
  destruct a as [|c a]; [done|]. rewrite string_app_cons. unfold boundary_length.
  destruct (is_ascii_line_boundary c); [done|].
  case_bool_decide.
  - destruct a as [|c2 a]; [done|]. by rewrite string_app_cons.
  - case_bool_decide; [|done].
    destruct a as [|c2 [|c3 a]]; [done| |].
    + rewrite string_app_cons, string_app_nil_l. by destruct b.
    + by rewrite !string_app_cons.
Qed.

(** The first line that [splitlines] finds is the text before the first
    line boundary. *)
Lemma splitlines_from_head (s line : string) :
  line ≠ "" ∨ s ≠ "" →
  ∃ pre rest lines,
    splitlines_from false 0 line s = (line +:+ pre) :: lines
    ∧ s = pre +:+ rest ∧ one_line pre = true
    ∧ (rest = "" ∨ boundary_length rest ≠ 0).
Proof.
  revert line. induction s as [|c s IH]; intros line Hne.
  - destruct Hne as [Hline|?]; [|done]. exists "", "", []. simpl.
    rewrite bool_decide_eq_false_2 by done. rewrite string_app_nil_r. eauto.
  - cbn [splitlines_from andb]. destruct (boundary_length (String c s)) as [|n] eqn:Hc.
    + destruct (IH (line +:+ String c "")) as (pre & rest & lines & Hsplit & -> & Hpre & Hrest).
      { left. by destruct line. }
      exists (String c pre), rest, lines. rewrite Hsplit, string_app_assoc.
      split; [done|]. split; [done|]. split; [|done].
      cbn [one_line]. rewrite <- string_app_cons in Hc.
      by rewrite (boundary_length_prefix _ _ Hc).
    + exists "", (String c s). eexists. rewrite string_app_nil_r.
      split; [done|]. split; [done|]. split; [done|]. right. by rewrite Hc.
Qed.

Section DocFacts.
Context `{env : Environment}.

Lemma doc_summary_first_line (body : list stmt) :
  (get_docstring body = None → doc_summary body = Ok "")
  ∧ ∀ text, get_docstring body = Some text →
      ∃ line rest,
        doc_summary body = Ok line ∧ text = line +:+ rest ∧ one_line line = true
        ∧ (rest = "" ∨ boundary_length rest ≠ 0).
Proof.
  unfold doc_summary. split; [by intros ->|]. intros text ->. simpl.
  case_bool_decide as Htext.
  - destruct (splitlines_from_head text "") as (pre & rest & lines & Hsplit & -> & Hpre & Hrest);
      [by right|].
    unfold splitlines. rewrite Hsplit. simpl. exists pre, rest. done.
  - exists "", "". rewrite Htext. eauto.
Qed.

Lemma doc_summary_one_line (body : list stmt) (line : string) :
  doc_summary body = Ok line → one_line line = true.
Proof.
  destruct (doc_summary_first_line body) as [Hnone Hsome].
  destruct (get_docstring body) as [text|] eqn:Hdoc.
  - destruct (Hsome text eq_refl) as (line' & rest & -> & _ & Hline & _).
    by intros [= <-].
  - rewrite Hnone by done. by intros [= <-].
Qed.
End DocFacts.

(** X5.  The summary of a route is the first line of the docstring of its
    function and nothing more: without a docstring it is empty; with one,
    the cleaned text is the summary followed by nothing or by a line
    boundary (one of LF, CR, VT, FF, FS, GS, RS, U+0085, U+2028 and
    U+2029), and the summary holds no line boundary. *)
Theorem doc_is_first_line `{env : Environment} name fargs body decorator
    file_name app_name r :
  build_route name fargs body decorator file_name app_name = Ok r →
  (get_docstring body = None → doc r = "")
  ∧ ∀ text, get_docstring body = Some text →
      ∃ rest, text = doc r +:+ rest ∧ one_line (doc r) = true
        ∧ (rest = "" ∨ boundary_length rest ≠ 0).
Proof.
  intros (methods & line & _ & Hline & ->)%build_route_Ok. simpl.
  destruct (doc_summary_first_line body) as [Hnone Hsome]. split.
  - intros Hdoc. rewrite (Hnone Hdoc) in Hline. by injection Hline as <-.
  - intros text Hdoc.
    destruct (Hsome text Hdoc) as (line' & rest & Hline' & -> & Hone & Hrest).
    rewrite Hline' in Hline. injection Hline as <-. eauto.
Qed.

Lemma doc_is_first_line_witness :
  ∃ rest, "Return all users." +:+ newline +:+ "Details..." = "Return all users." +:+ rest
    ∧ one_line "Return all users." = true
    ∧ (rest = "" ∨ boundary_length rest ≠ 0).
Proof.
  apply (proj2 (doc_is_first_line (env := no_files) "list_users"
                  (Arguments [] [Arg "limit" None; Arg "offset" None] None [] [] None [])
                  [Expr (Constant (CStr ("Return all users." +:+ newline +:+ "Details...")));
                   Return None]
                  (whitelist_with (List [Constant (CStr "GET")])) "users" "MyApp"
                  list_users_route ltac:(vm_compute; reflexivity))).
  reflexivity.
Defined.

(** X6.  Whatever the function declares, every route of a scan has the
    file name as its tag, no responses of its own, the schema [string] for
    each of its parameters, and a summary of one line. *)
Theorem route_fixed_fields `{env : Environment} tree file_name app_name routes r :
  scan_tree tree file_name app_name = Ok routes → r ∈ routes →
  tag r = file_name ∧ responses r = ∅
  ∧ Forall (λ p, param_schema p = string_schema) (params r)
  ∧ one_line (doc r) = true.
Proof.
  intros Hscan Hr.
  destruct (scan_tree_provenance _ _ _ _ _ Hscan Hr)
    as (name & fargs & body & ds & d & _ & _ & _ & Hbuild).
  apply build_route_Ok in Hbuild as (methods & line & _ & Hline & ->). simpl.
  split; [done|]. split; [done|]. split.
  - unfold build_params. apply Forall_fmap, Forall_true. done.
  - by eapply doc_summary_one_line.
Qed.

Lemma route_fixed_fields_witness :
  tag list_users_route = "users" ∧ responses list_users_route = ∅
  ∧ Forall (λ p, param_schema p = string_schema) (params list_users_route)
  ∧ one_line (doc list_users_route) = true.
Proof.
  apply (route_fixed_fields (env := no_files) [list_users] "users" "MyApp"
           [list_users_route] list_users_route);
    [vm_compute; reflexivity | apply list_elem_of_here].
Defined.

Lemma find_methods_arg_first (keywords : list keyword) :
  find_methods_arg keywords
  = find_methods_arg (take 1 (filter (λ kw, kw_arg kw = Some "methods") keywords)).
Proof.
  induction keywords as [|kw rest IH]; [done|].
  rewrite filter_cons. simpl. case_bool_decide as Hkw.
  - rewrite decide_True by done. simpl. by rewrite bool_decide_eq_true_2.
  - rewrite decide_False by done. apply IH.
Qed.

(** X7.  Of a [whitelist] call only the first keyword named [methods]
    counts for the route: the object whose attribute is called, the
    positional arguments, the other keywords and any later [methods]
    keyword change nothing. *)
Theorem only_first_methods_keyword_counts `{env : Environment}
    name fargs body file_name app_name func call_args keywords func' call_args' :
  build_route name fargs body (Call func call_args keywords) file_name app_name
  = build_route name fargs body
      (Call func' call_args'
         (take 1 (filter (λ kw, kw_arg kw = Some "methods") keywords)))
      file_name app_name.
Proof.
  unfold build_route, extract_methods. simpl. by rewrite find_methods_arg_first.
Qed.

(** ** File names *)

Lemma substring_skip (pre s : string) (m : nat) :
  substring (String.length pre) m (pre +:+ s) = substring 0 m s.
Proof. induction pre as [|c pre IH]; [done|]. rewrite string_app_cons. simpl. exact IH. Qed.

Lemma substring_all (s : string) : substring 0 (String.length s) s = s.
Proof. induction s as [|c s IH]; [done|]. simpl. by rewrite IH. Qed.

Lemma substring_prefix (s1 s2 : string) :
  substring 0 (String.length s1) (s1 +:+ s2) = s1.
Proof.
  induction s1 as [|c s1 IH]; [by destruct s2|].
  rewrite string_app_cons. simpl. by rewrite IH.
Qed.

Lemma substring_split (n : nat) (s : string) :
  n ≤ String.length s →
  s = substring 0 n s +:+ substring n (String.length s - n) s.
Proof.
  revert s. induction n as [|n IH]; intros s Hn.
  - rewrite Nat.sub_0_r, substring_all. by destruct s.
  - destruct s as [|c s]; simpl in *; [lia|].
    rewrite string_app_cons. f_equal. apply IH. lia.
Qed.

Lemma endswith_spec (s suffix : string) :
  endswith s suffix = true ↔ ∃ pre, s = pre +:+ suffix.
Proof.
  unfold endswith. rewrite andb_true_iff, Nat.leb_le, String.eqb_eq. split.
  - intros [Hlen Hsub]. exists (substring 0 (String.length s - String.length suffix) s).
    pose proof (substring_split (String.length s - String.length suffix) s) as Hsplit.
    replace (String.length s - (String.length s - String.length suffix))
      with (String.length suffix) in Hsplit by lia.
    rewrite Hsub in Hsplit. apply Hsplit. lia.
  - intros [pre ->]. rewrite string_app_length. split; [lia|].
    replace (String.length pre + String.length suffix - String.length suffix)
      with (String.length pre) by lia.
    by rewrite substring_skip, substring_all.
Qed.

Lemma rfind_from_app (c : ascii) (s1 s2 : string) (i : nat) :
  rfind_from c (s1 +:+ s2) i
  = match rfind_from c s2 (i + String.length s1) with
    | Some j => Some j
    | None => rfind_from c s1 i
    end.
Proof.
  revert i. induction s1 as [|a s1 IH]; intros i.
  - rewrite string_app_nil_l. simpl. rewrite Nat.add_0_r.
    by destruct (rfind_from c s2 i).
  - rewrite string_app_cons. simpl. rewrite IH.
    replace (S i + String.length s1) with (i + S (String.length s1)) by lia.
    by destruct (rfind_from c s2 _).
Qed.

Lemma rfind_from_absent (c : ascii) (s : string) (i : nat) :
  c ∉ list_ascii_of_string s → rfind_from c s i = None.
Proof.
  revert i. induction s as [|a s IH]; intros i; [done|]. simpl.
  intros [Hne Hrest]%not_elem_of_cons. rewrite IH by done.
  by rewrite bool_decide_eq_false_2.
Qed.

(** [os.path.splitext] on the name of a [.py] file. *)
Lemma splitext_root_py (stem : string) :
  "/"%char ∉ list_ascii_of_string stem →
  splitext_root (stem +:+ ".py") = if all_dots stem then stem +:+ ".py" else stem.
Proof.
  intros Hsep. unfold splitext_root, rfind.
  rewrite !rfind_from_app. simpl.
  rewrite (rfind_from_absent "/"%char stem) by done.
  rewrite Nat.sub_0_r, !substring_prefix. by destruct (all_dots stem).
Qed.

(** ** What the scan reads of its environment *)

Section TwoEnvironments.
Variables env1 env2 : Environment.
Hypothesis same_lower :
  ∀ text, lower (Environment := env1) text = lower (Environment := env2) text.
Hypothesis same_cleandoc :
  ∀ text, cleandoc (Environment := env1) text = cleandoc (Environment := env2) text.

Lemma get_docstring_ext (body : list stmt) :
  get_docstring (env := env1) body = get_docstring (env := env2) body.
Proof.
  destruct body as [|[] rest]; try done. destruct value; try done.
  destruct value; try done. simpl. by rewrite same_cleandoc.
Qed.

Lemma build_route_ext name fargs body decorator file_name app_name :
  build_route (env := env1) name fargs body decorator file_name app_name
  = build_route (env := env2) name fargs body decorator file_name app_name.
Proof. unfold build_route, doc_summary. by rewrite get_docstring_ext, same_lower. Qed.

Lemma scan_decorators_ext name fargs body decorators file_name app_name routes :
  scan_decorators (env := env1) name fargs body decorators file_name app_name routes
  = scan_decorators (env := env2) name fargs body decorators file_name app_name routes.
Proof.
  revert routes. induction decorators as [|d rest IH]; intros routes; [done|].
  simpl. destruct (is_whitelist_call d); [|apply IH].
  rewrite build_route_ext. destruct (build_route _ _ _ _ _ _); [|done]. simpl. apply IH.
Qed.

Lemma scan_tree_ext tree file_name app_name :
  scan_tree (env := env1) tree file_name app_name
  = scan_tree (env := env2) tree file_name app_name.
Proof.
  unfold scan_tree. generalize (@nil route) as routes.
  induction (walk tree) as [|node rest IH]; intros routes; [done|].
  destruct node; simpl; try apply IH.
  rewrite scan_decorators_ext. destruct (scan_decorators _ _ _ _ _ _ _); [|done].
  simpl. apply IH.
Qed.
End TwoEnvironments.

Lemma elem_of_py_files (entries : list (string * list string * list string))
    (f : string * string) :
  f ∈ py_files entries ↔
  ∃ root dirs files file,
    (root, dirs, files) ∈ entries ∧ file ∈ files ∧ endswith file ".py" = true
    ∧ f = (path_join root file, splitext_root file).
Proof.
  unfold py_files. rewrite list_elem_of_bind. split.
  - intros ([[root dirs] files] & Hf & Hentry). simpl in Hf.
    apply list_elem_of_bind in Hf as (file & Hf & [Hpy Hfile]%list_elem_of_filter).
    apply list_elem_of_singleton in Hf. exists root, dirs, files, file.
    split; [done|]. split; [done|]. split; [by apply Is_true_eq_true|done].
  - intros (root & dirs & files & file & Hentry & Hfile & Hpy & ->).
    exists (root, dirs, files). split; [|done]. simpl.
    apply list_elem_of_bind. exists file. split; [apply list_elem_of_here|].
    apply list_elem_of_filter. split; [by apply Is_true_eq_left|done].
Qed.

(** X8.  Every route of a module scan comes from a file of the walk whose
    name is a stem followed by [.py]: the file at the path of its directory
    joined with that name parses, and the route is one of the scan of its
    tree under the tag of the route.  That tag is the stem of the file, for
    a stem without [/] that is not made of dots alone; for a stem of dots
    only (or the empty one) it is the whole name of the file. *)
Theorem py_file_names `{env : Environment} module_path app_name routes r :
  extract_routes_from_module module_path app_name = Ok routes → r ∈ routes →
  ∃ root dirs files stem tree rs,
    (root, dirs, files) ∈ os_walk module_path ∧ stem +:+ ".py" ∈ files
    ∧ parse_file (path_join root (stem +:+ ".py")) = Ok tree
    ∧ scan_tree tree (tag r) app_name = Ok rs ∧ r ∈ rs
    ∧ ("/"%char ∉ list_ascii_of_string stem →
       tag r = if all_dots stem then stem +:+ ".py" else stem).
Proof.
  rewrite extract_routes_from_module_spec.
  intros (rss & Hrss%mapM_result_Ok & [= <-])%bind_Ok Hr.
  apply elem_of_concat in Hr as (rs & Hr & Hrs).
  apply list_elem_of_lookup in Hrs as [i Hi].
  destruct (Forall2_lookup_r _ _ _ _ _ Hrss Hi) as (f & Hf & Hextract).
  apply list_elem_of_lookup_2, elem_of_py_files in Hf
    as (root & dirs & files & file & Hentry & Hfile & [stem ->]%endswith_spec & ->).
  unfold extract_routes_from_file in Hextract. simpl in Hextract.
  apply bind_Ok in Hextract as (tree & Hparse & Hscan).
  assert (tag r = splitext_root (stem +:+ ".py")) as Htag.
  { destruct (scan_tree_provenance _ _ _ _ _ Hscan Hr)
      as (name & fargs & body & ds & d & _ & _ & _ & Hbuild).
    by apply build_route_Ok in Hbuild as (methods & line & _ & _ & ->). }
  exists root, dirs, files, stem, tree, rs. rewrite Htag.
  split; [done|]. split; [done|]. split; [done|]. split; [done|]. split; [done|].
  apply splitext_root_py.
Qed.

Lemma py_file_names_witness :
  ∃ root dirs files stem tree rs,
    (root, dirs, files) ∈ os_walk (Environment := shop_tree) "app"
    ∧ stem +:+ ".py" ∈ files
    ∧ parse_file (Environment := shop_tree) (path_join root (stem +:+ ".py")) = Ok tree
    ∧ scan_tree (env := shop_tree) tree (tag search_route) "Shop" = Ok rs
    ∧ search_route ∈ rs
    ∧ ("/"%char ∉ list_ascii_of_string stem →
       tag search_route = if all_dots stem then stem +:+ ".py" else stem).
Proof.
  apply (py_file_names (env := shop_tree) "app" "Shop" [create_order_route; search_route]);
    [vm_compute; reflexivity | apply list_elem_of_further, list_elem_of_here].
Defined.

Lemma mapM_result_ext {A B : Type} (f g : A → result B) (l : list A) :
  (∀ x, x ∈ l → f x = g x) → mapM f l = mapM g l.
Proof.
  induction l as [|x l IH]; intros Hext; [done|].
  rewrite !mapM_result_cons, Hext by apply list_elem_of_here.
  rewrite IH; [done|]. intros; apply Hext. by apply list_elem_of_further.
Qed.

(** X9.  The scan of a module reads nothing but the files of the walk whose
    name ends in [.py]: two file systems with the same walk, which agree on
    the parse of these files, give the same result under the same
    [str.lower] and [cleandoc], whatever their other files hold. *)
Theorem only_py_files_are_parsed (env1 env2 : Environment) module_path app_name :
  (∀ text, lower (Environment := env1) text = lower (Environment := env2) text) →
  (∀ text, cleandoc (Environment := env1) text = cleandoc (Environment := env2) text) →
  os_walk (Environment := env1) module_path = os_walk (Environment := env2) module_path →
  (∀ root dirs files file,
     (root, dirs, files) ∈ os_walk (Environment := env1) module_path →
     file ∈ files → endswith file ".py" = true →
     parse_file (Environment := env1) (path_join root file)
     = parse_file (Environment := env2) (path_join root file)) →
  extract_routes_from_module (env := env1) module_path app_name
  = extract_routes_from_module (env := env2) module_path app_name.
Proof.
  intros Hlower Hdoc Hwalk Hparse. rewrite !extract_routes_from_module_spec, <- Hwalk.
  erewrite mapM_result_ext; [done|].
  intros f (root & dirs & files & file & Hentry & Hfile & Hpy & ->)%elem_of_py_files.
  unfold extract_routes_from_file. simpl.
  rewrite (Hparse root dirs files file) by done.
  destruct (parse_file _); [|done]. simpl. by apply scan_tree_ext.
Qed.

Lemma only_py_files_are_parsed_witness :
  parse_file (Environment := shop_tree) "app/notes.txt"
    ≠ parse_file (Environment := shop_tree_with_notes) "app/notes.txt"
  ∧ extract_routes_from_module (env := shop_tree) "app" "Shop"
    = extract_routes_from_module (env := shop_tree_with_notes) "app" "Shop".
Proof.
  split; [vm_compute; discriminate|].
  apply only_py_files_are_parsed; [reflexivity|reflexivity|reflexivity|].
  intros root dirs files file Hentry Hfile Hpy.
  apply list_elem_of_singleton in Hentry. injection Hentry as -> _ ->.
  repeat (apply elem_of_cons in Hfile as [->|Hfile]; [try discriminate Hpy; vm_compute; reflexivity|]).
  by apply elem_of_nil in Hfile.
Defined.

(** * Further properties of the document *)

Lemma ascii_lower_idempotent (c : ascii) : ascii_lower (ascii_lower c) = ascii_lower c.
Proof. by destruct c as [[] [] [] [] [] [] [] []]. Qed.

Lemma lower_ascii_idempotent (s : string) : lower_ascii (lower_ascii s) = lower_ascii s.
Proof.
  induction s as [|c s IH]; [done|]. simpl. by rewrite ascii_lower_idempotent, IH.
Qed.

Section DocumentFacts.
Context `{env : Environment}.

Lemma elem_of_operation_keys (routes : list route) (x : string * result constant) :
  x ∈ operation_keys routes ↔
  ∃ r m, r ∈ routes ∧ m ∈ method r ∧ x = (path r, str_lower m).
Proof.
  unfold operation_keys. rewrite list_elem_of_bind. split.
  - intros (r & Hx & Hr). apply list_elem_of_bind in Hx as (m & Hx & Hm).
    apply list_elem_of_singleton in Hx. eauto.
  - intros (r & m & Hr & Hm & ->). exists r. split; [|done].
    apply list_elem_of_bind. exists m. split; [apply list_elem_of_here|done].
Qed.

Lemma add_operations_origin r methods schema_paths schema_paths' p k op :
  add_operations r methods schema_paths = Ok schema_paths' →
  stored schema_paths' p k = Some op →
  stored schema_paths p k = Some op
  ∨ ∃ m, m ∈ methods ∧ p = path r ∧ str_lower m = Ok k ∧ op = operation_of r m.
Proof.
  revert schema_paths. induction methods as [|m0 rest IH]; intros schema_paths.
  - intros [= <-]. by left.
  - simpl. intros (key0 & Hkey0 & Hrest)%bind_Ok Hop.
    destruct (IH _ Hrest Hop) as [Hold|(m & Hm & ? & ? & ?)].
    + rewrite stored_after_write in Hold. case_decide as Hhere; [|by left].
      destruct Hhere as [-> ->]. injection Hold as <-.
      right. exists m0. split; [apply list_elem_of_here|done].
    + right. exists m. split; [by apply list_elem_of_further|done].
Qed.

Lemma add_routes_origin routes state state' p k op :
  add_routes routes state = Ok state' →
  stored state'.2 p k = Some op →
  stored state.2 p k = Some op
  ∨ ∃ r m, r ∈ routes ∧ m ∈ method r ∧ p = path r ∧ str_lower m = Ok k
           ∧ op = operation_of r m.
Proof.
  revert state. induction routes as [|r rest IH]; intros state.
  - intros [= <-]. by left.
  - cbn [add_routes]. intros (schema_paths & Hops & Hrest)%bind_Ok Hop.
    destruct (IH _ Hrest Hop) as [Hold|(r' & m & Hr' & ?)].
    + simpl in Hold.
      destruct (add_operations_origin _ _ _ _ _ _ _ Hops Hold) as [?|(m & ? & ?)];
        [by left|].
      right. exists r, m. split; [apply list_elem_of_here|done].
    + right. exists r', m. split; [by apply list_elem_of_further|done].
Qed.

Lemma add_operations_no_empty_path r methods schema_paths schema_paths' :
  add_operations r methods schema_paths = Ok schema_paths' →
  no_empty_path schema_paths → no_empty_path schema_paths'.
Proof.
  revert schema_paths. induction methods as [|m0 rest IH]; intros schema_paths.
  - by intros [= <-].
  - simpl. intros (key0 & Hkey0 & Hrest)%bind_Ok Hinv. apply (IH _ Hrest).
    intros p inner. rewrite lookup_alter. destruct (decide (path r = p)) as [<-|Hp].
    + case_bool_decide as Hnew.
      * rewrite lookup_insert_eq. intros [= <-]. apply insert_non_empty.
      * destruct (schema_paths !! path r) as [old|]; [|done].
        intros [= <-]. apply insert_non_empty.
    + case_bool_decide as Hnew; [rewrite lookup_insert_ne by done|]; apply Hinv.
Qed.

Lemma add_routes_no_empty_path routes state state' :
  add_routes routes state = Ok state' →
  no_empty_path state.2 → no_empty_path state'.2.
Proof.
  revert state. induction routes as [|r rest IH]; intros state.
  - by intros [= <-].
  - cbn [add_routes]. intros (schema_paths & Hops & Hrest)%bind_Ok Hinv.
    apply (IH _ Hrest). simpl. by eapply add_operations_no_empty_path.
Qed.

Lemma add_operations_kept r methods schema_paths schema_paths' p k :
  add_operations r methods schema_paths = Ok schema_paths' →
  is_Some (stored schema_paths p k) → is_Some (stored schema_paths' p k).
Proof.
  revert schema_paths. induction methods as [|m0 rest IH]; intros schema_paths.
  - by intros [= <-].
  - simpl. intros (key0 & Hkey0 & Hrest)%bind_Ok Hsome. apply (IH _ Hrest).
    rewrite stored_after_write. by case_decide.
Qed.

Lemma add_operations_written r methods schema_paths schema_paths' m :
  add_operations r methods schema_paths = Ok schema_paths' → m ∈ methods →
  ∃ k, str_lower m = Ok k ∧ is_Some (stored schema_paths' (path r) k).
Proof.
  revert schema_paths. induction methods as [|m0 rest IH]; intros schema_paths.
  - intros _ Hm. by inversion Hm.
  - simpl. intros (key0 & Hkey0 & Hrest)%bind_Ok [->|Hm]%elem_of_cons; [|by eapply IH].
    exists key0. split; [done|]. eapply add_operations_kept; [exact Hrest|].
    rewrite stored_after_write. by rewrite decide_True.
Qed.

Lemma add_routes_kept routes state state' p k :
  add_routes routes state = Ok state' →
  is_Some (stored state.2 p k) → is_Some (stored state'.2 p k).
Proof.
  revert state. induction routes as [|r rest IH]; intros state.
  - by intros [= <-].
  - cbn [add_routes]. intros (schema_paths & Hops & Hrest)%bind_Ok Hsome.
    apply (IH _ Hrest). simpl. by eapply add_operations_kept.
Qed.

Lemma add_routes_written routes state state' r m :
  add_routes routes state = Ok state' → r ∈ routes → m ∈ method r →
  ∃ k, str_lower m = Ok k ∧ is_Some (stored state'.2 (path r) k).
Proof.
  revert state. induction routes as [|r0 rest IH]; intros state.
  - intros _ Hr. by inversion Hr.
  - cbn [add_routes]. intros (schema_paths & Hops & Hrest)%bind_Ok [->|Hr]%elem_of_cons Hm;
      [|by eapply IH].
    destruct (add_operations_written _ _ _ _ _ Hops Hm) as (k & Hk & Hsome).
    exists k. split; [done|]. by eapply (add_routes_kept _ _ _ _ _ Hrest).
Qed.

End DocumentFacts.

(** X10.  A generated document holds nothing but what the routes give: every
    operation in it stands under the path of a route and what
    [method.lower()] gives for one of its methods, and is the operation
    built for that pair.  Every path of the document has at least one
    operation, and every pair of a route and a method has an operation at
    its place. *)
Theorem document_operations_come_from_routes `{env : Environment} routes app_name d :
  generate_openapi_spec routes app_name = Ok d →
  (∀ p k op, lookup_operation d p k = Some op →
     ∃ r m, r ∈ routes ∧ m ∈ method r ∧ p = path r ∧ str_lower m = Ok k
            ∧ op = operation_of r m)
  ∧ (∀ p inner, paths d !! p = Some inner → ∃ k op, inner !! k = Some op)
  ∧ (∀ r m, r ∈ routes → m ∈ method r →
       ∃ k, str_lower m = Ok k ∧ is_Some (lookup_operation d (path r) k)).
Proof.
  unfold generate_openapi_spec, lookup_operation.
  intros (state & Hstate & [= <-])%bind_Ok. simpl. split; [|split].
  - intros p k op Hop.
    destruct (add_routes_origin _ _ _ _ _ _ Hstate Hop) as [Hempty|(r & m & Hr & Hm & -> & Hk & ->)].
    { unfold stored in Hempty. simpl in Hempty. by rewrite lookup_empty in Hempty. }
    eauto 10.
  - intros p inner Hinner. apply map_choose.
    eapply (add_routes_no_empty_path _ _ _ Hstate); [|exact Hinner].
    intros p' inner'. simpl. by rewrite lookup_empty.
  - intros r m Hr Hm. by eapply add_routes_written.
Qed.

Lemma document_operations_come_from_routes_witness :
  ∃ r m, r ∈ [list_users_route; ban_user_route] ∧ m ∈ method r
         ∧ "/api/methods/myapp.api.users.ban_user" = path r
         ∧ str_lower (env := no_files) m = Ok (CStr "put")
         ∧ operation_of ban_user_route (CStr "PUT") = operation_of r m.
Proof.
  apply (proj1 (document_operations_come_from_routes (env := no_files)
                  [list_users_route; ban_user_route] "MyApp" users_document
                  ltac:(vm_compute; reflexivity))
           "/api/methods/myapp.api.users.ban_user" (CStr "put")
           (operation_of ban_user_route (CStr "PUT"))).
  vm_compute. reflexivity.
Defined.

(** X11.  Every operation of a generated document has the same text as
    summary and description, one tag, and at least one response; it carries
    its parameters in [parameters] or in a request body, never in both, and
    a request body stands under the keys [post] and [put] only. *)
Theorem operation_shape `{env : Environment} routes app_name d p k op :
  generate_openapi_spec routes app_name = Ok d →
  lookup_operation d p k = Some op →
  op_summary op = op_description op
  ∧ (∃ t, op_tags op = [t])
  ∧ op_responses op ≠ ∅
  ∧ (requestBody op = None ∨ op_parameters op = [])
  ∧ (is_Some (requestBody op) → k = CStr "post" ∨ k = CStr "put").
Proof.
  unfold generate_openapi_spec, lookup_operation.
  intros (state & Hstate & [= <-])%bind_Ok Hop. simpl in Hop.
  destruct (add_routes_origin _ _ _ _ _ _ Hstate Hop) as [Hempty|(r & m & Hr & Hm & -> & Hk & ->)].
  { unfold stored in Hempty. simpl in Hempty. by rewrite lookup_empty in Hempty. }
  unfold operation_of. simpl. split; [done|]. split; [eauto|]. split.
  - case_bool_decide as Hresp; [|done]. unfold default_responses.
    apply insert_non_empty.
  - destruct (is_post_or_put m) eqn:Hbody; simpl.
    + split; [by right|]. intros _.
      apply is_post_or_put_true in Hbody as [->| ->]; injection Hk as <-;
        [left; by rewrite (lower_on_ascii "POST")|right; by rewrite (lower_on_ascii "PUT")].
    + split; [by left|]. by intros [? ?].
Qed.

Lemma operation_shape_witness :
  op_summary (operation_of ban_user_route (CStr "PUT"))
    = op_description (operation_of ban_user_route (CStr "PUT"))
  ∧ (∃ t, op_tags (operation_of ban_user_route (CStr "PUT")) = [t])
  ∧ op_responses (operation_of ban_user_route (CStr "PUT")) ≠ ∅
  ∧ (requestBody (operation_of ban_user_route (CStr "PUT")) = None
     ∨ op_parameters (operation_of ban_user_route (CStr "PUT")) = [])
  ∧ (is_Some (requestBody (operation_of ban_user_route (CStr "PUT")))
     → CStr "put" = CStr "post" ∨ CStr "put" = CStr "put").
Proof.
  apply (operation_shape (env := no_files) [list_users_route; ban_user_route] "MyApp"
           users_document "/api/methods/myapp.api.users.ban_user" (CStr "put"));
    vm_compute; reflexivity.
Defined.

(** ** Overwriting, failure and empty input *)

Section OverwriteFacts.
Context `{env : Environment}.

Lemma add_operations_app r methods1 methods2 schema_paths :
  add_operations r (methods1 ++ methods2) schema_paths
  = schema_paths' ← add_operations r methods1 schema_paths;
    add_operations r methods2 schema_paths'.
Proof.
  revert schema_paths. induction methods1 as [|m rest IH]; intros schema_paths; [done|].
  simpl. destruct (str_lower m); [|done]. simpl. apply IH.
Qed.

Lemma add_routes_app routes1 routes2 state :
  add_routes (routes1 ++ routes2) state
  = state' ← add_routes routes1 state; add_routes routes2 state'.
Proof.
  revert state. induction routes1 as [|r rest IH]; intros state; [done|].
  simpl. destruct (add_operations r (method r) state.2); [|done]. simpl. apply IH.
Qed.

(** The paths that the loop builds do not depend on the tags. *)
Lemma add_routes_paths routes tags1 tags2 schema_paths state :
  add_routes routes (tags1, schema_paths) = Ok state →
  ∃ tags', add_routes routes (tags2, schema_paths) = Ok (tags', state.2).
Proof.
  revert tags1 tags2 schema_paths. induction routes as [|r rest IH];
    intros tags1 tags2 schema_paths.
  - intros [= <-]. by exists tags2.
  - cbn [add_routes]. simpl. intros (schema_paths' & Hops & Hrest)%bind_Ok.
    rewrite Hops. simpl. by eapply IH.
Qed.

Lemma add_operations_Raise r methods schema_paths e :
  add_operations r methods schema_paths = Raise e →
  e = AttributeError
  ∧ ∃ m, m ∈ methods ∧ (∀ s, m ≠ CStr s) ∧ (∀ b, m ≠ CBytes b).
Proof.
  revert schema_paths. induction methods as [|m rest IH]; intros schema_paths; [done|].
  simpl. intros [Hm|(key & Hkey & Hrest)]%bind_Raise.
  - destruct m; try done; injection Hm as <-;
      (split; [done|]); eexists; (split; [apply list_elem_of_here|done]).
  - destruct (IH _ Hrest) as (-> & m' & Hm' & Hstr).
    split; [done|]. exists m'. split; [by apply list_elem_of_further|done].
Qed.

Lemma add_routes_Raise routes state e :
  add_routes routes state = Raise e →
  e = AttributeError
  ∧ ∃ r m, r ∈ routes ∧ m ∈ method r ∧ (∀ s, m ≠ CStr s) ∧ (∀ b, m ≠ CBytes b).
Proof.
  revert state. induction routes as [|r rest IH]; intros state; [done|].
  cbn [add_routes]. intros [Hops|(schema_paths & Hops & Hrest)]%bind_Raise.
  - apply add_operations_Raise in Hops as (-> & m & Hm & Hstr).
    split; [done|]. exists r, m. split; [apply list_elem_of_here|done].
  - destruct (IH _ Hrest) as (-> & r' & m & Hr' & Hm).
    split; [done|]. exists r', m. split; [by apply list_elem_of_further|done].
Qed.
End OverwriteFacts.

(** X12.  Where several pairs of a route and a method have the same path
    and the same key, the result of [method.lower()], the document keeps
    the operation of the last one: a pair is in the document whenever no
    later method of its route and no method of a later route is stored in
    its place. *)
Theorem later_write_wins `{env : Environment}
    before r after methods1 m methods2 key app_name d :
  generate_openapi_spec (before ++ r :: after) app_name = Ok d →
  method r = methods1 ++ m :: methods2 →
  str_lower m = Ok key →
  (∀ m', m' ∈ methods2 → str_lower m' ≠ Ok key) →
  (∀ r' m', r' ∈ after → m' ∈ method r' → path r' = path r → str_lower m' ≠ Ok key) →
  lookup_operation d (path r) key = Some (operation_of r m).
Proof.
  unfold generate_openapi_spec, lookup_operation.
  intros (state & Hstate & [= <-])%bind_Ok Hmethod Hkey Hlater Hafter. simpl.
  rewrite add_routes_app in Hstate.
  apply bind_Ok in Hstate as (state1 & _ & Hstate). cbn [add_routes] in Hstate.
  apply bind_Ok in Hstate as (schema_paths & Hops & Hrest).
  rewrite Hmethod, add_operations_app in Hops.
  apply bind_Ok in Hops as (schema_paths1 & _ & Hops). simpl in Hops.
  rewrite Hkey in Hops. simpl in Hops.
  rewrite (add_routes_frame _ _ _ (path r) key Hrest).
  - simpl. rewrite (add_operations_frame _ _ _ _ (path r) key Hops).
    + rewrite stored_after_write. by rewrite decide_True.
    + intros (m' & [= Hm'] & Hin)%list_elem_of_fmap. by apply (Hlater m').
  - intros (r' & m' & Hr' & Hm' & [= Hpath Hlow])%elem_of_operation_keys.
    by apply (Hafter r' m').
Qed.

Lemma later_write_wins_witness :
  ∃ d, generate_openapi_spec (env := no_files) [old_ping_route; new_ping_route] "Shop"
       = Ok d
       ∧ lookup_operation d "/api/methods/shop.api.health.ping" (CStr "get")
         = Some (operation_of new_ping_route (CStr "get")).
Proof.
  eexists. split; [vm_compute; reflexivity|].
  apply (later_write_wins (env := no_files) [old_ping_route] new_ping_route [] []
           (CStr "get") [] (CStr "get") "Shop");
    [vm_compute; reflexivity | reflexivity | reflexivity | |].
  - intros m' Hm'. by apply elem_of_nil in Hm'.
  - intros r' m' Hr'. by apply elem_of_nil in Hr'.
Defined.

(** X13.  The generation raises nothing but [AttributeError], and it
    raises it exactly when a method of some route is neither a [str] nor a
    [bytes] (such as the [5] of [methods=5], which the scan accepts): no
    document is built then. *)
Theorem generation_fails_on_method_without_lower `{env : Environment} routes app_name :
  (∀ e, generate_openapi_spec routes app_name = Raise e → e = AttributeError)
  ∧ (generate_openapi_spec routes app_name = Raise AttributeError
     ↔ ∃ r m, r ∈ routes ∧ m ∈ method r ∧ (∀ s, m ≠ CStr s) ∧ (∀ b, m ≠ CBytes b)).
Proof.
  assert (∀ e, generate_openapi_spec routes app_name = Raise e →
            e = AttributeError
            ∧ ∃ r m, r ∈ routes ∧ m ∈ method r ∧ (∀ s, m ≠ CStr s) ∧ (∀ b, m ≠ CBytes b))
    as Hraise.
  { unfold generate_openapi_spec.
    intros e [Hstate|(state & _ & ?)]%bind_Raise; [|done]. by eapply add_routes_Raise. }
  split; [intros e He; by apply Hraise|]. split; [intros He; by apply (Hraise _ He)|].
  intros (r & m & Hr & Hm & Hstr & Hbytes).
  destruct (generate_openapi_spec routes app_name) as [d|e] eqn:Hgen.
  - assert (∃ d, generate_openapi_spec routes app_name = Ok d) as Hok by eauto.
    apply generate_openapi_spec_total in Hok.
    rewrite Forall_forall in Hok. specialize (Hok r Hr).
    rewrite Forall_forall in Hok.
    destruct (Hok m Hm) as [[s ->]|[b ->]]; [by destruct (Hstr s)|by destruct (Hbytes b)].
  - by destruct (Hraise e eq_refl) as [-> _].
Qed.

Lemma generation_fails_on_method_without_lower_witness :
  ∃ routes,
    scan_tree (env := no_files) [numbered] "orders" "Shop" = Ok routes
    ∧ generate_openapi_spec (env := no_files) routes "Shop" = Raise AttributeError.
Proof.
  eexists. split; [vm_compute; reflexivity|].
  apply (proj2 (generation_fails_on_method_without_lower (env := no_files) _ "Shop")).
  eexists _, (CInt 5). split; [apply list_elem_of_here|].
  split; [apply list_elem_of_here|]. split; intros s; discriminate.
Defined.

(** X14.  A route with an empty list of methods adds no operation: the
    paths of the document are those of the document without the route.  Its
    tag is in the list of tags all the same. *)
Theorem route_without_methods `{env : Environment} before r after app_name d :
  generate_openapi_spec (before ++ r :: after) app_name = Ok d →
  method r = [] →
  Tag (tag r) ∈ tags d
  ∧ ∃ d', generate_openapi_spec (before ++ after) app_name = Ok d'
          ∧ paths d' = paths d.
Proof.
  unfold generate_openapi_spec.
  intros (state & Hstate & [= <-])%bind_Ok Hmethod. simpl. split.
  - apply add_routes_tags in Hstate. rewrite Hstate.
    apply list_elem_of_fmap_2, elem_of_elements, elem_of_union. left.
    apply elem_of_list_to_set, list_elem_of_fmap_2, elem_of_app. right.
    apply list_elem_of_here.
  - rewrite add_routes_app in Hstate. rewrite add_routes_app.
    apply bind_Ok in Hstate as (state1 & Hbefore & Hstate). rewrite Hbefore. simpl.
    cbn [add_routes] in Hstate. rewrite Hmethod in Hstate. simpl in Hstate.
    destruct state1 as [tags1 schema_paths1]. simpl in Hstate.
    destruct (add_routes_paths _ _ tags1 _ _ Hstate) as [tags' ->]. simpl. eauto.
Qed.

Lemma route_without_methods_witness :
  ∃ d d',
    generate_openapi_spec (env := no_files)
      ([list_users_route]
       ++ {| function_name := "idle"; path := "/api/methods/myapp.api.jobs.idle";
             method := []; params := []; doc := ""; responses := ∅; tag := "jobs" |}
       :: [ban_user_route]) "MyApp" = Ok d
    ∧ Tag "jobs" ∈ tags d
    ∧ generate_openapi_spec (env := no_files)
        ([list_users_route] ++ [ban_user_route]) "MyApp" = Ok d'
    ∧ paths d' = paths d.
Proof.
  eexists.
  destruct (route_without_methods (env := no_files) [list_users_route]
              {| function_name := "idle"; path := "/api/methods/myapp.api.jobs.idle";
                 method := []; params := []; doc := ""; responses := ∅; tag := "jobs" |}
              [ban_user_route] "MyApp" _ ltac:(vm_compute; reflexivity) eq_refl)
    as (Htag & d' & Hd' & Hpaths).
  exists d'. split; [vm_compute; reflexivity|]. done.
Defined.

(** ** From the directory to the document *)

Lemma mapM_result_all_nil {A B : Type} (f : A → result (list B)) (l : list A) :
  (∀ x, x ∈ l → f x = Ok []) → ∃ k, mapM f l = Ok k ∧ concat k = [].
Proof.
  induction l as [|x l IH]; intros Hall; [by exists []|].
  destruct IH as (k & Hk & Hnil); [intros; apply Hall; by apply list_elem_of_further|].
  exists ([] :: k). rewrite mapM_result_cons, Hall by apply list_elem_of_here.
  cbn. rewrite Hk. done.
Qed.

(** X15.  Without a matching function there is nothing to document: when
    every [.py] file of the walk parses and none of its [def]s has a
    [whitelist] call (and so when the walk has no [.py] file, or yields
    nothing at all), the document has no path and no tag. *)
Theorem nothing_to_document `{env : Environment} module_path app_name :
  (∀ f, f ∈ py_files (os_walk module_path) →
        ∃ tree, parse_file f.1 = Ok tree
                ∧ Forall (λ node, is_matching node = false) (walk tree)) →
  custom_openapi module_path app_name = Ok (empty_document app_name).
Proof.
  intros Hfiles. unfold custom_openapi. rewrite extract_routes_from_module_spec.
  destruct (mapM_result_all_nil
              (λ f : string * string, extract_routes_from_file f.1 f.2 app_name)
              (py_files (os_walk module_path))) as (rss & -> & Hnil).
  { intros f (tree & Hparse & Hnone)%Hfiles. unfold extract_routes_from_file.
    rewrite Hparse. simpl. by apply scan_nodes_no_match. }
  cbn. rewrite Hnil. unfold generate_openapi_spec, empty_document. cbn.
  by rewrite elements_empty.
Qed.

Lemma nothing_to_document_witness :
  custom_openapi
    (env := table_environment "app"
              [("notes.txt", Raise SyntaxError); ("util.py", Ok [Pass; list_users_plain])])
    "app" "Shop"
  = Ok (empty_document "Shop").
Proof.
  apply nothing_to_document.
  change (py_files (os_walk _)) with [("app/util.py", "util")].
  intros f ->%list_elem_of_singleton. eexists. split; [vm_compute; reflexivity|].
  vm_compute. repeat constructor.
Defined.

(** X16.  Every operation of the served document stands under the path
    [/api/methods/], the lower-cased application name, [.api.], the file
    name and the name of a [def] with a [whitelist] call, found by the walk
    of a [.py] file that parses; its only tag is the file name, and its
    responses are the default [200]. *)
Theorem served_paths `{env : Environment} module_path app_name d p k op :
  custom_openapi module_path app_name = Ok d →
  lookup_operation d p k = Some op →
  ∃ f tree name fargs body decorator_list,
    f ∈ py_files (os_walk module_path) ∧ parse_file f.1 = Ok tree
    ∧ FunctionDef name fargs body decorator_list ∈ walk tree
    ∧ existsb is_whitelist_call decorator_list = true
    ∧ p = "/api/methods/" +:+ lower app_name +:+ ".api." +:+ f.2 +:+ "." +:+ name
    ∧ op_tags op = [f.2]
    ∧ op_responses op = default_responses.
Proof.
  unfold custom_openapi. rewrite extract_routes_from_module_spec.
  intros (routes & (rss & Hrss%mapM_result_Ok & [= <-])%bind_Ok & Hgen)%bind_Ok Hop.
  unfold generate_openapi_spec in Hgen.
  apply bind_Ok in Hgen as (state & Hstate & [= <-]).
  unfold lookup_operation in Hop. simpl in Hop.
  destruct (add_routes_origin _ _ _ _ _ _ Hstate Hop)
    as [Hempty|(r & m & Hr & Hm & -> & Hk & ->)].
  { unfold stored in Hempty. simpl in Hempty. by rewrite lookup_empty in Hempty. }
  apply elem_of_concat in Hr as (rs & Hr & Hrs).
  apply list_elem_of_lookup in Hrs as [i Hi].
  destruct (Forall2_lookup_r _ _ _ _ _ Hrss Hi) as (f & Hf & Hextract).
  apply list_elem_of_lookup_2 in Hf.
  unfold extract_routes_from_file in Hextract.
  apply bind_Ok in Hextract as (tree & Hparse & Hscan).
  destruct (scan_tree_provenance _ _ _ _ _ Hscan Hr)
    as (name & fargs & body & ds & dec & Hnode & Hdec & Hcall & Hbuild).
  apply build_route_Ok in Hbuild as (methods & line & _ & _ & ->).
  exists f, tree, name, fargs, body, ds. simpl.
  split; [done|]. split; [done|]. split; [done|]. split; [|done].
  apply existsb_exists. exists dec. split; [by apply list_elem_of_In|done].
Qed.

Lemma served_paths_witness :
  ∃ f tree name fargs body decorator_list,
    f ∈ py_files (os_walk (Environment := shop_tree) "app")
    ∧ parse_file (Environment := shop_tree) f.1 = Ok tree
    ∧ FunctionDef name fargs body decorator_list ∈ walk tree
    ∧ existsb is_whitelist_call decorator_list = true
    ∧ "/api/methods/shop.api.catalog.search"
      = "/api/methods/" +:+ lower (Environment := shop_tree) "Shop" +:+ ".api." +:+ f.2
        +:+ "." +:+ name
    ∧ op_tags (operation_of search_route (CStr "POST")) = [f.2]
    ∧ op_responses (operation_of search_route (CStr "POST")) = default_responses.
Proof.
  destruct (custom_openapi (env := shop_tree) "app" "Shop") as [d|e] eqn:Hd;
    [|by vm_compute in Hd].
  apply (served_paths (env := shop_tree) "app" "Shop" d _ (CStr "post") _ Hd).
  vm_compute in Hd. injection Hd as <-. vm_compute. reflexivity.
Defined.

(** X17.  The tags of the served document are the file names of the [.py]
    files that hold a [def] with a [whitelist] call, and no others. *)
Theorem served_tags `{env : Environment} module_path app_name d t :
  custom_openapi module_path app_name = Ok d →
  Tag t ∈ tags d
  ↔ ∃ f tree node,
      f ∈ py_files (os_walk module_path) ∧ parse_file f.1 = Ok tree
      ∧ node ∈ walk tree ∧ is_matching node = true ∧ f.2 = t.
Proof.
  unfold custom_openapi. rewrite extract_routes_from_module_spec.
  intros (routes & (rss & Hrss%mapM_result_Ok & [= <-])%bind_Ok & Hgen)%bind_Ok.
  unfold generate_openapi_spec in Hgen.
  apply bind_Ok in Hgen as (state & Hstate & [= <-]). simpl.
  apply add_routes_tags in Hstate. simpl in Hstate.
  rewrite (right_id_L ∅ (∪)) in Hstate.
  assert (Tag t ∈ Tag <$> elements state.1 ↔ ∃ r, r ∈ concat rss ∧ tag r = t) as ->.
  { rewrite list_elem_of_fmap. split.
    - intros (t' & [= <-] & Ht). rewrite elem_of_elements, Hstate in Ht.
      apply elem_of_list_to_set, list_elem_of_fmap in Ht as (r & -> & Hr). eauto.
    - intros (r & Hr & <-). exists (tag r). split; [done|].
      rewrite elem_of_elements, Hstate.
      by apply elem_of_list_to_set, list_elem_of_fmap_2. }
  split.
  - intros (r & Hr & <-).
    apply elem_of_concat in Hr as (rs & Hr & Hrs).
    apply list_elem_of_lookup in Hrs as [i Hi].
    destruct (Forall2_lookup_r _ _ _ _ _ Hrss Hi) as (f & Hf & Hextract).
    apply list_elem_of_lookup_2 in Hf.
    unfold extract_routes_from_file in Hextract.
    apply bind_Ok in Hextract as (tree & Hparse & Hscan).
    destruct (scan_tree_provenance _ _ _ _ _ Hscan Hr)
      as (name & fargs & body & ds & dec & Hnode & Hdec & Hcall & Hbuild).
    apply build_route_Ok in Hbuild as (methods & line & _ & _ & ->).
    exists f, tree, (FunctionDef name fargs body ds). simpl.
    split; [done|]. split; [done|]. split; [done|]. split; [|done].
    apply existsb_exists. exists dec. split; [by apply list_elem_of_In|done].
  - intros (f & tree & node & Hf & Hparse & Hnode & Hmatch & <-).
    destruct node; try done. simpl in Hmatch.
    apply existsb_exists in Hmatch as (dec & Hdec%list_elem_of_In & Hcall).
    apply list_elem_of_lookup in Hf as [i Hi].
    destruct (Forall2_lookup_l _ _ _ _ _ Hrss Hi) as (rs & Hrs & Hextract).
    unfold extract_routes_from_file in Hextract. rewrite Hparse in Hextract.
    destruct (scan_tree_complete _ _ _ _ _ _ _ _ _ Hextract Hnode Hdec Hcall)
      as (r & Hr & Hbuild).
    apply build_route_Ok in Hbuild as (methods & line & _ & _ & Hroute).
    exists r. split; [|by rewrite Hroute].
    apply elem_of_concat. exists rs. split; [done|]. by eapply list_elem_of_lookup_2.
Qed.

Lemma served_tags_witness :
  ∃ d, custom_openapi (env := shop_tree) "app" "Shop" = Ok d ∧ Tag "catalog" ∈ tags d.
Proof.
  destruct (custom_openapi (env := shop_tree) "app" "Shop") as [d|e] eqn:Hd;
    [|by vm_compute in Hd].
  exists d. split; [done|].
  apply (served_tags (env := shop_tree) "app" "Shop" d "catalog" Hd).
  exists ("app/catalog.py", "catalog"), [search], search.
  split; [vm_compute; apply list_elem_of_further, list_elem_of_here|].
  split; [vm_compute; reflexivity|].
  split; [vm_compute; apply list_elem_of_here|done].
Defined.

(** X18.  The location of the parameters follows the whole list of methods
    of the route, not the method of the operation: where a route of a scan
    has [POST] or [PUT] among its methods, the operation of each other
    method lists all parameters of the route, and every one of them has the
    location [body]. *)
Theorem body_parameters_under_other_methods `{env : Environment}
    tree file_name app_name routes r m :
  scan_tree tree file_name app_name = Ok routes → r ∈ routes → m ∈ method r →
  CStr "POST" ∈ method r ∨ CStr "PUT" ∈ method r →
  m ≠ CStr "POST" → m ≠ CStr "PUT" →
  requestBody (operation_of r m) = None
  ∧ op_parameters (operation_of r m) = params r
  ∧ Forall (λ p, param_in p = "body") (op_parameters (operation_of r m)).
Proof.
  intros Hscan Hr Hm Hbody Hpost Hput.
  assert (is_post_or_put m = false) as Hother.
  { apply not_true_iff_false. rewrite is_post_or_put_true. tauto. }
  unfold operation_of. simpl. rewrite Hother. simpl.
  split; [done|]. split; [done|].
  destruct (scan_tree_provenance _ _ _ _ _ Hscan Hr)
    as (name & fargs & body & ds & d & _ & _ & _ & Hbuild).
  apply build_route_Ok in Hbuild as (methods & line & _ & _ & ->). simpl in *.
  eapply Forall_impl; [apply build_params_location|]. intros p ->. unfold location.
  destruct Hbody as [Hin|Hin]; rewrite (bool_decide_eq_true_2 _ Hin);
    [done|by rewrite orb_true_r].
Qed.

Lemma body_parameters_under_other_methods_witness :
  requestBody (operation_of find_order_route (CStr "GET")) = None
  ∧ op_parameters (operation_of find_order_route (CStr "GET")) = params find_order_route
  ∧ Forall (λ p, param_in p = "body")
      (op_parameters (operation_of find_order_route (CStr "GET"))).
Proof.
  apply (body_parameters_under_other_methods (env := no_files) [find_order] "orders" "Shop"
           [find_order_route] find_order_route (CStr "GET")).
  - vm_compute. reflexivity.
  - apply list_elem_of_here.
  - apply list_elem_of_here.
  - left. apply list_elem_of_further, list_elem_of_here.
  - discriminate.
  - discriminate.
Defined.
